(** * Dungeom: a de Bruijn graph assembler

    A shallow embedding of [Dungeom.py] and the proofs of its specification.

    The program breaks a DNA sequence into k-mers, builds the edge list and
    the node set of the de Bruijn graph, shuffles the edges (the first one
    stays in place), searches an Eulerian trail by a recursive, edge-consuming
    walk that is retried until the degree table sums to zero, and folds the
    trail back into a sequence that is compared with the input.

    Modelling choices:
    - Python [str] is [string]; a slice [s[i:j]] with [0 <= i] clamps at the
      end of the string, as [String.substring] does.
    - Python [list] is [list]; [l.remove(x)] deletes the first element equal
      to [x]; a [for] loop over a list that its body mutates reads the list
      by an increasing index, so the loops are written with that index.
    - Python [set] of strings is [gset string], [dict] from strings to
      integers is [gmap string Z].
    - [random.shuffle] is a parameter: a function that returns a permutation
      of its argument; the [n]-th call of a run uses the [n]-th function.
    - exceptions are the constructors of [error]; recursion that the proof
      assistant cannot see terminating carries fuel, and [OutOfFuel] is kept
      apart from the exceptions of the program.
    - the argument parser (lines 70-80) and [check_positive_kmer_size], whose
      [str.isdigit] and [int] depend on the character classes of the
      interpreter, are outside the model: [seq] is the upper-case sequence
      and [kmer] the k-mer size they deliver. [check_dna_sequence] and the
      guard of lines 88-90 are modelled ([script]). The
      interpreter's recursion limit, which line 83 sets to [len(seq)], is not
      modelled either; the concrete runs below use [k >= 5] where they recurse
      deeply, so that the calls of [find_tour] stay below that limit. *)

From Stdlib Require Import ZArith Lia.
From Stdlib Require Import Ascii.
From Stdlib Require String.
From stdpp Require Import base list strings gmap fin_maps.

Open Scope Z_scope.
Open Scope nat_scope.

(** ** Exceptions and results *)

Inductive error : Type :=
  | KeyError
  | IndexError
  | ValueError
  | UnboundLocalError
  | OutOfFuel.

Inductive res (A : Type) : Type :=
  | Ok (a : A)
  | Err (e : error).

Arguments Ok {A} a.
Arguments Err {A} e.

Global Instance res_ret : MRet res := fun _ a => Ok a.

Global Instance res_bind : MBind res := fun _ _ f r =>
  match r with
  | Ok a => f a
  | Err e => Err e
  end.

Definition of_option {A : Type} (e : error) (o : option A) : res A :=
  match o with
  | Some a => Ok a
  | None => Err e
  end.

(** ** Strings *)

(** [s[lo:hi]] for [0 <= lo]: the symbols at the offsets [lo .. hi-1] that
    exist. *)
Definition slice (s : string) (lo hi : nat) : string :=
  String.substring lo (hi - lo) s.

(** [word[-1]]: the last symbol, [IndexError] on the empty string. *)
Fixpoint last_symbol (word : string) : res ascii :=
  match word with
  | EmptyString => Err IndexError
  | String c EmptyString => Ok c
  | String _ rest => last_symbol rest
  end.

(** [range(n)] for an integer [n]: empty when [n <= 0]. *)
Definition range (n : Z) : list nat := seq 0 (Z.to_nat n).

(** ** The graph *)

Abbreviation edge := (string * string)%type.

(** [l.remove(x)]: delete the first element equal to [x]; [ValueError] when
    there is none. *)
Fixpoint list_remove `{EqDecision A} (x : A) (l : list A) : res (list A) :=
  match l with
  | [] => Err ValueError
  | y :: l' =>
      if decide (x = y) then Ok l'
      else r ← list_remove x l'; Ok (y :: r)
  end.

(** The offsets [range(len(str) - k)] that the loop of [de_bruijn_convert]
    visits. *)
Definition offsets (str : string) (k : nat) : list nat :=
  range (Z.of_nat (String.length str) - Z.of_nat k).

(** [de_bruijn_convert(str, k)], lines 100-111. *)
Definition de_bruijn_convert (str : string) (k : nat)
  : list edge * gset string :=
  foldl
    (fun '(edges, nodes) i =>
       (edges ++ [(slice str i (i + k), slice str (i + 1) (i + k + 1))],
        nodes ∪ {[slice str i (i + k)]} ∪ {[slice str (i + 1) (i + k + 1)]}))
    ([], ∅)
    (offsets str k).

(** The loop of [de_bruijn_convert] addresses [str] out of range when one of
    the slices it takes ends past the last symbol; the largest bound of the
    slices taken at the offset [i] is [i + k + 1]. *)
Definition addresses_out_of_range (str : string) (k : nat) : Prop :=
  ∃ i, i ∈ offsets str k ∧ String.length str < i + k + 1.

(** [shuffled_edges(graph)], lines 130-142. The loop reads [graph] by index
    while its body removes from it; [first_edge] stays unbound when the loop
    body never runs. [bound] is the number of iterations still allowed, a
    number the length of the list never exceeds. *)
Fixpoint shuffled_edges_loop (bound i : nat) (graph : list edge)
    (first_element : bool) (first_edge : option edge)
  : res (list edge * option edge) :=
  match bound with
  | 0 => Ok (graph, first_edge)
  | S bound' =>
      match graph !! i with
      | None => Ok (graph, first_edge)
      | Some e =>
          if first_element then
            graph' ← list_remove e graph;
            shuffled_edges_loop bound' (i + 1) graph' false (Some e)
          else shuffled_edges_loop bound' (i + 1) graph first_element first_edge
      end
  end.

Definition shuffled_edges (shuffle : list edge → list edge)
    (graph : list edge) : res (list edge) :=
  '(graph, first_edge) ← shuffled_edges_loop (length graph) 0 graph true None;
  let graph := shuffle graph in
  first_edge ← of_option UnboundLocalError first_edge;
  Ok (first_edge :: graph).

(** [dictionary_of_node_edge_frequencies(edges, nodes)], lines 147-159. *)

(** [nodes.index(node)]; [node] is always taken from [nodes] itself, so the
    [ValueError] of a missing element cannot occur (see [index_lt]). *)
Fixpoint index (node : string) (nodes : list string) : nat :=
  match nodes with
  | [] => 0
  | x :: nodes' => if decide (node = x) then 0 else S (index node nodes')
  end.

(** [dict(pairs)]: later pairs overwrite earlier ones. *)
Definition dict (pairs : list (string * Z)) : gmap string Z :=
  list_to_map (reverse pairs).

Definition node_edge_frequencies (edges : list edge) (nodes : list string)
  : list Z :=
  foldl
    (fun result node =>
       foldl
         (fun result '(a, b) =>
            if decide (node = a ∨ node = b)
            then alter (Z.add 1) (index node nodes) result
            else result)
         result edges)
    (replicate (length nodes) 0%Z)
    nodes.

Definition dictionary_of_node_edge_frequencies (edges : list edge)
    (nodes : gset string) : gmap string Z :=
  let nodes := elements nodes in
  let result := node_edge_frequencies edges nodes in
  dict (zip nodes result).

Definition sum_Z (l : list Z) : Z := foldr Z.add 0%Z l.

(** [sum(freq_dict.values())] *)
Definition sum_values (d : gmap string Z) : Z :=
  sum_Z (map_to_list d).*2.

(** ** The trail finder *)

(** The three objects [find_tour] mutates and shares with its recursive
    calls. *)
Record state : Type := State {
  Edges : list edge;
  tour : list string;
  kmer_dict : gmap string Z
}.

(** [kmer_dict[a] -= 1] *)
Definition decrement (a : string) (d : gmap string Z) : res (gmap string Z) :=
  v ← of_option KeyError (d !! a);
  Ok (<[a := (v - 1)%Z]> d).

(** [find_tour(current, Edges, tour, kmer_dict)], lines 176-183, entered at
    the index [i] of its [for] loop: the loop looks at [Edges[i]] in the list
    as the calls so far have left it, and stops when [i] is past its end. *)
Fixpoint find_tour_loop (fuel : nat) (current : string) (i : nat)
    (st : state) : res state :=
  match fuel with
  | 0 => Err OutOfFuel
  | S fuel' =>
      match Edges st !! i with
      | None => Ok (State (Edges st) (current :: tour st) (kmer_dict st))
      | Some (a, b) =>
          if decide (a = current) then
            Edges' ← list_remove (a, b) (Edges st);
            d ← decrement a (kmer_dict st);
            d ← decrement b d;
            st' ← find_tour_loop fuel' b 0 (State Edges' (tour st) d);
            find_tour_loop fuel' current (i + 1) st'
          else find_tour_loop fuel' current (i + 1) st
      end
  end.

(** Fuel that is always enough (see [find_tour_ok]). *)
Definition find_tour_fuel (n : nat) : nat := S ((n + 1) * (n + 1)).

Definition find_tour (current : string) (st : state) : res state :=
  find_tour_loop (find_tour_fuel (length (Edges st))) current 0 st.

(** [eulerian_tour_to_superstring(graph)], lines 188-200. *)
Fixpoint superstring_loop (graph : list string) (superstring : string)
    (first_word : bool) : res string :=
  match graph with
  | [] => Ok superstring
  | word :: graph' =>
      if first_word then
        superstring_loop graph' (superstring +:+ word) false
      else
        c ← last_symbol word;
        superstring_loop graph' (superstring +:+ String c EmptyString)
          first_word
  end.

Definition eulerian_tour_to_superstring (graph : list string) : res string :=
  superstring_loop graph EmptyString true.

(** ** The program *)

Inductive verdict : Type := identical | not_identical.

Section Program.
(** The globals [seq] and [kmer], and the outcomes of [random.shuffle]. *)
Variable seq : string.
Variable kmer : nat.
Variable shuffle : nat → list edge → list edge.

(** The [while] loop of [find_eulerian_tour], lines 169-175; [n] counts the
    calls of [shuffle] so far and [tour_var], the variable [tour], is [None]
    while it is unbound. *)
Fixpoint find_eulerian_tour_loop (attempts n : nat)
    (freq_dict : gmap string Z) (tour_var : option (list string))
  : res (list string) :=
  if decide (sum_values freq_dict ≠ 0%Z) then
    match attempts with
    | 0 => Err OutOfFuel
    | S attempts' =>
        let '(edges, nodes) := de_bruijn_convert seq kmer in
        graph ← shuffled_edges (shuffle n) edges;
        let freq_dict := dictionary_of_node_edge_frequencies graph nodes in
        '(a, _) ← of_option IndexError (graph !! 0);
        st ← find_tour a (State graph [] freq_dict);
        find_eulerian_tour_loop attempts' (S n) (kmer_dict st)
          (Some (tour st))
    end
  else of_option UnboundLocalError tour_var.

(** [find_eulerian_tour(graph)], lines 163-175. *)
Definition find_eulerian_tour (attempts : nat) (graph : list edge)
  : res (list string) :=
  let '(edges, nodes) := de_bruijn_convert seq kmer in
  let freq_dict := dictionary_of_node_edge_frequencies graph nodes in
  find_eulerian_tour_loop attempts 1 freq_dict None.

(** The main part, lines 208-218: the assembled sequence that is printed
    and the verdict printed after it. *)
Definition main (attempts : nat) : res (string * verdict) :=
  let '(edges, nodes) := de_bruijn_convert seq kmer in
  graph ← shuffled_edges (shuffle 0) edges;
  let freq_dict := dictionary_of_node_edge_frequencies graph nodes in
  tour_list ← find_eulerian_tour attempts graph;
  assembled_seq ← eulerian_tour_to_superstring tour_list;
  if decide (assembled_seq = seq)
  then Ok (assembled_seq, identical)
  else Ok (assembled_seq, not_identical).
End Program.

(** Outcomes of [random.shuffle] used in examples. *)
Definition no_shuffle : nat → list edge → list edge := fun _ l => l.
Definition rev_shuffle : nat → list edge → list edge := fun _ l => reverse l.

(** The last element moves to the front. *)
Definition rotate (l : list edge) : list edge :=
  match reverse l with
  | [] => []
  | e :: r => e :: reverse r
  end.
Definition rotate_shuffle : nat → list edge → list edge := fun _ l => rotate l.

(** What the specification says the reconstructor returns: the first node
    verbatim, then the last symbol of each subsequent node. *)
Definition final_symbol (w : string) : string :=
  match String.get (String.length w - 1) w with
  | Some c => String c EmptyString
  | None => EmptyString
  end.

Definition first_then_last_symbols (first : string) (rest : list string)
  : string :=
  first +:+ foldr String.append EmptyString (final_symbol <$> rest).

(** The two ways of counting the edges at a node. [incidence] counts every
    edge that names the node as prefix or as suffix once; [degree] counts the
    occurrences of the node among the endpoints, so that an edge whose prefix
    equals its suffix counts twice, as section 4.2 of the specification asks. *)
Definition incident (node : string) (e : edge) : Prop :=
  node = e.1 ∨ node = e.2.

Global Instance incident_dec (node : string) (e : edge) :
  Decision (incident node e).
Proof. unfold incident. apply _. Defined.

Definition incidence (node : string) (edges : list edge) : Z :=
  Z.of_nat (length (filter (incident node) edges)).

Definition degree (node : string) (edges : list edge) : Z :=
  Z.of_nat (length (filter (λ e : edge, node = e.1) edges)
            + length (filter (λ e : edge, node = e.2) edges)).

Definition self_loops (edges : list edge) : list edge :=
  filter (λ e : edge, e.1 = e.2) edges.

(** The runs of [find_tour_loop] as derivations: the loop ends, passes over an
    edge that does not start at [current], or consumes one, walks on from its
    far end and resumes at the next index. *)
Inductive find_tour_run : string → nat → state → state → Prop :=
  | run_end current i st :
      Edges st !! i = None →
      find_tour_run current i st
        (State (Edges st) (current :: tour st) (kmer_dict st))
  | run_pass current i st a b st' :
      Edges st !! i = Some (a, b) →
      a ≠ current →
      find_tour_run current (i + 1) st st' →
      find_tour_run current i st st'
  | run_take current i st b Edges' d1 d2 st1 st' :
      Edges st !! i = Some (current, b) →
      list_remove (current, b) (Edges st) = Ok Edges' →
      decrement current (kmer_dict st) = Ok d1 →
      decrement b d1 = Ok d2 →
      find_tour_run b 0 (State Edges' (tour st) d2) st1 →
      find_tour_run current (i + 1) st1 st' →
      find_tour_run current i st st'.

(** ** More of the script *)




(** [check_dna_sequence(input_seq)], lines 64-67: the function returns [None]
    when the loop ends, and raises [argparse.ArgumentTypeError] at the first
    symbol that is not in ["GCTAgcta"]; for a single symbol, [in] is
    membership among the symbols of that literal. *)
Inductive argument_type_error : Type :=
  | ArgumentTypeError (message : string).

Definition is_nucleotide (nucleotide : ascii) : bool :=
  bool_decide (nucleotide ∈ String.list_ascii_of_string "GCTAgcta").

Fixpoint check_dna_sequence (input_seq : string)
  : argument_type_error + unit :=
  match input_seq with
  | EmptyString => inr ()
  | String nucleotide rest =>
      if is_nucleotide nucleotide then check_dna_sequence rest
      else inl (ArgumentTypeError "Non-standard nucleotides in the sequence")
  end.

(** The degree table of the single edge from ["A"] to ["C"], and the state
    after the call of [find_tour] at ["A"] on that edge. *)
Definition single_edge_table : gmap string Z := {["A" := 1%Z; "C" := 1%Z]}.
Definition single_edge_after : state :=
  State [] ["A"; "C"] (<["C" := 0%Z]> (<["A" := 0%Z]> single_edge_table)).

(** * Proofs *)

(** ** Strings and slices *)

Lemma substring_length (s : string) : ∀ n m,
  n + m ≤ String.length s → String.length (String.substring n m s) = m.
Proof.
  induction s as [|c s IH]; intros n m H; simpl in *.
  - assert (n = 0) by lia. assert (m = 0) by lia. by subst.
  - destruct n as [|n]; simpl.
    + destruct m as [|m]; simpl; [done|]. rewrite IH; [done|lia].
    + apply IH. lia.
Qed.

Lemma slice_length (s : string) (lo hi : nat) :
  lo ≤ hi → hi ≤ String.length s → String.length (slice s lo hi) = hi - lo.
Proof. intros. unfold slice. apply substring_length. lia. Qed.

Lemma substring_prefix (s : string) : ∀ i k,
  String.substring 0 k (String.substring i (S k) s) = String.substring i k s.
Proof.
  induction s as [|c s IH]; intros i k.
  - destruct i, k; reflexivity.
  - destruct i as [|i]; simpl; [|apply IH].
    clear IH. revert c s. induction k as [|k IHk]; intros c s; [done|].
    simpl. f_equal. destruct s as [|c' s]; [by destruct k|]. apply IHk.
Qed.

Lemma substring_suffix (s : string) : ∀ i k,
  String.substring 1 k (String.substring i (S k) s)
  = String.substring (S i) k s.
Proof.
  induction s as [|c s IH]; intros i k.
  - destruct i, k; reflexivity.
  - destruct i as [|i]; [|apply IH].
    change (String.substring 0 (S k) (String c s))
      with (String c (String.substring 0 k s)).
    change (String.substring 1 k (String c (String.substring 0 k s)))
      with (String.substring 0 k (String.substring 0 k s)).
    change (String.substring 1 k (String c s)) with (String.substring 0 k s).
    clear. revert s. induction k as [|k IHk]; intros s.
    + by destruct s.
    + destruct s as [|c s]; [done|]. simpl. f_equal. apply IHk.
Qed.

(** A [(k+1)]-mer determines the two [k]-mers of its edge. *)
Lemma slice_window (s : string) (i j k : nat) :
  slice s i (i + k + 1) = slice s j (j + k + 1) →
  slice s i (i + k) = slice s j (j + k) ∧
  slice s (i + 1) (i + k + 1) = slice s (j + 1) (j + k + 1).
Proof.
  unfold slice.
  replace (i + k + 1 - i) with (S k) by lia.
  replace (j + k + 1 - j) with (S k) by lia.
  replace (i + k - i) with k by lia.
  replace (j + k - j) with k by lia.
  replace (i + k + 1 - (i + 1)) with k by lia.
  replace (j + k + 1 - (j + 1)) with k by lia.
  replace (i + 1) with (S i) by lia. replace (j + 1) with (S j) by lia.
  intros H. split.
  - by rewrite <- (substring_prefix s i k), <- (substring_prefix s j k), H.
  - by rewrite <- (substring_suffix s i k), <- (substring_suffix s j k), H.
Qed.

(** ** The graph builder *)

Section Builder.
Variable str : string.
Variable k : nat.

Let window (i : nat) : edge :=
  (slice str i (i + k), slice str (i + 1) (i + k + 1)).

Let step : list edge * gset string → nat → list edge * gset string :=
  fun '(edges, nodes) i =>
    (edges ++ [(slice str i (i + k), slice str (i + 1) (i + k + 1))],
     nodes ∪ {[slice str i (i + k)]} ∪ {[slice str (i + 1) (i + k + 1)]}).

Lemma builder_loop_edges (l : list nat) : ∀ edges nodes,
  (foldl step (edges, nodes) l).1 = edges ++ (window <$> l).
Proof.
  induction l as [|i l IH]; intros edges nodes; simpl.
  - by rewrite app_nil_r.
  - rewrite IH. by rewrite <- app_assoc.
Qed.

Lemma builder_loop_nodes (l : list nat) : ∀ edges nodes x,
  x ∈ (foldl step (edges, nodes) l).2 ↔
  x ∈ nodes ∨ ∃ i, i ∈ l ∧ (x = (window i).1 ∨ x = (window i).2).
Proof.
  induction l as [|i l IH]; intros edges nodes x; simpl.
  - split; [by left|]. intros [?|(i & Hi & _)]; [done|]. by inversion Hi.
  - rewrite IH. unfold window. simpl. split.
    + intros [H|(j & Hj & H)].
      * apply elem_of_union in H as [H|H].
        -- apply elem_of_union in H as [H|H]; [by left|].
           apply elem_of_singleton in H. right. exists i. split; [left|by left].
        -- apply elem_of_singleton in H. right. exists i. split; [left|by right].
      * right. exists j. split; [by right|done].
    + rewrite !elem_of_union, !elem_of_singleton.
      intros [H|(j & Hj & H)]; [by left; left; left|].
      apply elem_of_cons in Hj as [->|Hj].
      * left. destruct H as [->| ->]; [left; by right|by right].
      * right. by exists j.
Qed.

Lemma de_bruijn_convert_edges :
  (de_bruijn_convert str k).1 = window <$> offsets str k.
Proof. unfold de_bruijn_convert. fold step. by rewrite builder_loop_edges. Qed.

Lemma de_bruijn_convert_nodes (x : string) :
  x ∈ (de_bruijn_convert str k).2 ↔
  ∃ i, i ∈ offsets str k ∧ (x = (window i).1 ∨ x = (window i).2).
Proof.
  etrans; [exact (builder_loop_nodes (offsets str k) [] ∅ x)|].
  split; [|by right]. intros [H|H]; [|done].
  by apply not_elem_of_empty in H.
Qed.

Lemma offsets_seq : offsets str k = seq 0 (String.length str - k).
Proof. unfold offsets, range. f_equal. lia. Qed.

Lemma de_bruijn_convert_lookup (i : nat) :
  i < String.length str - k →
  (de_bruijn_convert str k).1 !! i = Some (window i).
Proof.
  intros Hi. rewrite de_bruijn_convert_edges, offsets_seq, list_lookup_fmap.
  by rewrite lookup_seq_lt.
Qed.

Lemma de_bruijn_convert_length :
  length (de_bruijn_convert str k).1 = String.length str - k.
Proof.
  by rewrite de_bruijn_convert_edges, offsets_seq, length_fmap, length_seq.
Qed.
End Builder.

(** C5: for a valid input, [1 <= k < L], the Graph Builder returns exactly
    [L - k] edges; the edge at the offset [i] is the pair
    [(sequence[i:i+k], sequence[i+1:i+k+1])], so the edges come in the order of
    the sequence with the offset 0 first; two offsets that carry the same
    [(k+1)]-mer carry equal edge tuples, each kept at its own position. *)
Theorem C5_graph_builder_edges (sequence : string) (k : nat) :
  1 ≤ k → k < String.length sequence →
  let edges := (de_bruijn_convert sequence k).1 in
  let L := String.length sequence in
  length edges = L - k ∧
  (∀ i, i < L - k →
     edges !! i
     = Some (slice sequence i (i + k), slice sequence (i + 1) (i + k + 1))) ∧
  (∀ i j, i < L - k → j < L - k →
     slice sequence i (i + k + 1) = slice sequence j (j + k + 1) →
     is_Some (edges !! i) ∧ edges !! i = edges !! j).
Proof.
  intros _ _ edges L. split; [apply de_bruijn_convert_length|]. split.
  - intros i Hi. by apply de_bruijn_convert_lookup.
  - intros i j Hi Hj Hw. subst edges.
    rewrite !de_bruijn_convert_lookup by done.
    apply slice_window in Hw as [-> ->]. eauto.
Qed.

Lemma C5_graph_builder_edges_witness :
  let edges := (de_bruijn_convert "AAAA" 1).1 in
  length edges = 3 ∧
  (∀ i, i < 3 →
     edges !! i = Some (slice "AAAA" i (i + 1), slice "AAAA" (i + 1) (i + 1 + 1))) ∧
  (∀ i j, i < 3 → j < 3 →
     slice "AAAA" i (i + 1 + 1) = slice "AAAA" j (j + 1 + 1) →
     is_Some (edges !! i) ∧ edges !! i = edges !! j).
Proof. apply (C5_graph_builder_edges "AAAA" 1); simpl; lia. Defined.

(** The edges of the two scenarios of the specification. *)
Example edges_ATGGGTCA :
  (de_bruijn_convert "ATGGGTCA" 2).1
  = [("AT", "TG"); ("TG", "GG"); ("GG", "GG"); ("GG", "GT"); ("GT", "TC");
     ("TC", "CA")].
Proof. reflexivity. Qed.

Example edges_AAAA :
  (de_bruijn_convert "AAAA" 1).1 = [("A", "A"); ("A", "A"); ("A", "A")].
Proof. reflexivity. Qed.

(** No slice of the loop ever ends past the string, whatever [k] is. *)
Lemma offsets_in_range (str : string) (k i : nat) :
  i ∈ offsets str k → i + k + 1 ≤ String.length str.
Proof. rewrite offsets_seq, elem_of_seq. lia. Qed.

(** C9, as the code has it: invoked with [k >= length(sequence)] the Graph
    Builder visits no offset, so it takes no slice and addresses nothing out
    of range, and it returns the empty edge list and the empty node set. *)
Theorem C9_builder_beyond_length (str : string) (k : nat) :
  String.length str ≤ k →
  offsets str k = [] ∧
  ¬ addresses_out_of_range str k ∧
  de_bruijn_convert str k = ([], ∅).
Proof.
  intros Hk.
  assert (offsets str k = []) as Hoff.
  { rewrite offsets_seq. by replace (String.length str - k) with 0 by lia. }
  split; [done|]. split.
  - intros (i & Hi & _). rewrite Hoff in Hi. by inversion Hi.
  - unfold de_bruijn_convert. by rewrite Hoff.
Qed.

Lemma C9_builder_beyond_length_witness :
  offsets "ACG" 5 = [] ∧
  ¬ addresses_out_of_range "ACG" 5 ∧
  de_bruijn_convert "ACG" 5 = ([], ∅).
Proof. apply (C9_builder_beyond_length "ACG" 5). simpl. lia. Defined.

(** C9 as the specification states it fails: with [k = 3 = length "ACG"] the
    Graph Builder addresses nothing out of range and returns a result. *)
Lemma C9_counterexample :
  String.length "ACG" ≤ 3 ∧
  ¬ addresses_out_of_range "ACG" 3 ∧
  de_bruijn_convert "ACG" 3 = ([], ∅).
Proof.
  split; [simpl; lia|]. split; [|reflexivity].
  intros (i & Hi & _). by inversion Hi.
Qed.

(** ** The edge randomizer *)

Lemma list_remove_head `{EqDecision A} (x : A) (l : list A) :
  list_remove x (x :: l) = Ok l.
Proof. simpl. by rewrite decide_True. Qed.

Lemma shuffled_edges_loop_done (bound : nat) : ∀ i graph first_edge,
  shuffled_edges_loop bound i graph false first_edge = Ok (graph, first_edge).
Proof.
  induction bound as [|bound IH]; intros i graph first_edge; simpl; [done|].
  destruct (graph !! i); [apply IH|done].
Qed.

Lemma shuffled_edges_cons (shuffle : list edge → list edge) (e : edge)
    (graph : list edge) :
  shuffled_edges shuffle (e :: graph) = Ok (e :: shuffle graph).
Proof.
  unfold shuffled_edges. cbn [length shuffled_edges_loop lookup list_lookup].
  rewrite list_remove_head. cbn [mbind res_bind].
  by rewrite shuffled_edges_loop_done.
Qed.

Lemma shuffled_edges_nil (shuffle : list edge → list edge) :
  shuffled_edges shuffle [] = Err UnboundLocalError.
Proof. reflexivity. Qed.

(** C6: on a non-empty edge list the Edge Randomizer returns a permutation of
    its input whose first element is the first element of the input, and the
    remaining elements are a permutation of the remaining elements of the
    input. *)
Theorem C6_randomizer_permutation (shuffle : list edge → list edge)
    (graph : list edge) :
  (∀ l, shuffle l ≡ₚ l) →
  graph ≠ [] →
  ∃ out, shuffled_edges shuffle graph = Ok out ∧
         head out = head graph ∧
         out ≡ₚ graph ∧
         tail out ≡ₚ tail graph.
Proof.
  intros Hperm Hne. destruct graph as [|e graph]; [done|].
  exists (e :: shuffle graph). rewrite shuffled_edges_cons.
  repeat split; simpl; [|done]. by rewrite Hperm.
Qed.

Lemma C6_randomizer_permutation_witness :
  ∃ out,
    shuffled_edges reverse [("AT", "TG"); ("TG", "GG"); ("GG", "GG")] = Ok out ∧
    head out = head [("AT", "TG"); ("TG", "GG"); ("GG", "GG")] ∧
    out ≡ₚ [("AT", "TG"); ("TG", "GG"); ("GG", "GG")] ∧
    tail out ≡ₚ tail [("AT", "TG"); ("TG", "GG"); ("GG", "GG")].
Proof.
  apply (C6_randomizer_permutation reverse).
  - intros l. apply reverse_Permutation.
  - discriminate.
Defined.

(** ** The superstring reconstructor *)

Lemma string_app_cons (x : ascii) (a b : string) :
  String x a +:+ b = String x (a +:+ b).
Proof. reflexivity. Qed.

Lemma string_app_nil_l (a : string) : EmptyString +:+ a = a.
Proof. reflexivity. Qed.

Lemma string_app_assoc (a b c : string) : (a +:+ b) +:+ c = a +:+ (b +:+ c).
Proof.
  induction a as [|x a IH]; [done|]. rewrite !string_app_cons. by f_equal.
Qed.

Lemma string_app_nil_r (a : string) : a +:+ EmptyString = a.
Proof.
  induction a as [|x a IH]; [done|]. rewrite string_app_cons. by f_equal.
Qed.

Lemma string_get_cons (c : ascii) (w : string) :
  w ≠ EmptyString →
  String.get (String.length (String c w) - 1) (String c w)
  = String.get (String.length w - 1) w.
Proof.
  destruct w as [|c' w]; [done|]. intros _. simpl.
  by rewrite Nat.sub_0_r.
Qed.

(** On a non-empty word the code's [word[-1]] is the last symbol. *)
Lemma last_symbol_final (w : string) :
  w ≠ EmptyString →
  ∃ c, last_symbol w = Ok c ∧ final_symbol w = String c EmptyString.
Proof.
  induction w as [|c w IH]; [done|]. intros _.
  destruct w as [|c' w].
  - exists c. by split.
  - destruct IH as (c0 & Hl & Hf); [done|]. exists c0. split; [done|].
    unfold final_symbol in *. by rewrite string_get_cons.
Qed.

Lemma superstring_loop_rest (rest : list string) : ∀ acc,
  Forall (λ w, w ≠ EmptyString) rest →
  superstring_loop rest acc false
  = Ok (acc +:+ foldr String.append EmptyString (final_symbol <$> rest)).
Proof.
  induction rest as [|w rest IH]; intros acc Hne.
  - simpl. by rewrite string_app_nil_r.
  - inversion Hne as [|? ? Hw Hrest]; subst.
    destruct (last_symbol_final w Hw) as (c & Hl & Hf).
    cbn [superstring_loop fmap list_fmap foldr]. rewrite Hl, Hf.
    cbn [mbind res_bind]. rewrite IH by done. by rewrite string_app_assoc.
Qed.

Lemma superstring_loop_empty_word (rest : list string) : ∀ acc,
  Exists (λ w, w = EmptyString) rest →
  superstring_loop rest acc false = Err IndexError.
Proof.
  induction rest as [|w rest IH]; intros acc Hex; [by inversion Hex|].
  cbn [superstring_loop]. destruct w as [|c w].
  - reflexivity.
  - inversion Hex as [? ? Hw|? ? Hrest]; subst; [done|].
    destruct (last_symbol_final (String c w)) as (c0 & Hl & _); [done|].
    rewrite Hl. cbn [mbind res_bind]. by apply IH.
Qed.

Lemma eulerian_tour_to_superstring_cons (w : string) (rest : list string) :
  eulerian_tour_to_superstring (w :: rest) = superstring_loop rest w false.
Proof. reflexivity. Qed.

(** C7: on a non-empty Tour of k-mers of one length [k >= 1] the
    Reconstructor returns, without failing, the first node followed by the
    last symbol of each subsequent node. *)
Theorem C7_reconstructor_uniform (k : nat) (first : string)
    (rest : list string) :
  1 ≤ k →
  Forall (λ w, String.length w = k) (first :: rest) →
  eulerian_tour_to_superstring (first :: rest)
  = Ok (first_then_last_symbols first rest).
Proof.
  intros Hk Hlen. rewrite eulerian_tour_to_superstring_cons.
  apply superstring_loop_rest. inversion Hlen as [|? ? _ Hrest]; subst.
  eapply Forall_impl; [exact Hrest|]. intros w Hw ->. simpl in Hw. lia.
Qed.

Lemma C7_reconstructor_uniform_witness :
  eulerian_tour_to_superstring ["AT"; "TG"; "GG"; "GG"; "GT"; "TC"; "CA"]
  = Ok (first_then_last_symbols "AT" ["TG"; "GG"; "GG"; "GT"; "TC"; "CA"]).
Proof.
  apply (C7_reconstructor_uniform 2); [lia|].
  repeat constructor.
Defined.

Example reconstruct_ATGGGTCA :
  first_then_last_symbols "AT" ["TG"; "GG"; "GG"; "GT"; "TC"; "CA"]
  = "ATGGGTCA".
Proof. reflexivity. Qed.

(** C10, as the code has it: the Reconstructor returns the empty string on the
    empty Tour; on a non-empty Tour it returns the first element followed by
    the last symbol of each subsequent element when every subsequent element
    is non-empty, whatever the lengths and also when the first element is
    empty; it raises [IndexError] when a subsequent element is empty. *)
Theorem C10_reconstructor_domain :
  eulerian_tour_to_superstring [] = Ok EmptyString ∧
  (∀ first rest,
     Forall (λ w, w ≠ EmptyString) rest →
     eulerian_tour_to_superstring (first :: rest)
     = Ok (first_then_last_symbols first rest)) ∧
  (∀ first rest,
     Exists (λ w, w = EmptyString) rest →
     eulerian_tour_to_superstring (first :: rest) = Err IndexError).
Proof.
  split; [reflexivity|]. split; intros first rest H.
  - rewrite eulerian_tour_to_superstring_cons. by apply superstring_loop_rest.
  - rewrite eulerian_tour_to_superstring_cons.
    by apply superstring_loop_empty_word.
Qed.

Lemma C10_reconstructor_domain_witness :
  eulerian_tour_to_superstring [""; "AC"; "G"]
  = Ok (first_then_last_symbols "" ["AC"; "G"]) ∧
  eulerian_tour_to_superstring ["AC"; ""; "G"] = Err IndexError.
Proof.
  destruct C10_reconstructor_domain as (_ & Hok & Herr). split.
  - apply Hok. repeat constructor; discriminate.
  - apply Herr. by left.
Defined.

(** C10 as stated fails: the Reconstructor is not total, an empty element
    after the first one raises [IndexError]. *)
Lemma C10_counterexample :
  eulerian_tour_to_superstring ["A"; ""] = Err IndexError ∧
  ¬ (∃ s, eulerian_tour_to_superstring ["A"; ""] = Ok s).
Proof. split; [reflexivity|]. intros [s Hs]. discriminate Hs. Qed.

(** ** The degree tracker *)

Lemma index_lookup (nodes : list string) (j : nat) (node : string) :
  NoDup nodes → nodes !! j = Some node → index node nodes = j.
Proof.
  revert j. induction nodes as [|x nodes IH]; intros j Hnd Hj; [done|].
  inversion Hnd as [|? ? Hx Hnd']; subst. destruct j as [|j]; simpl in *.
  - inversion Hj; subst. by rewrite decide_True.
  - rewrite decide_False.
    + f_equal. by apply IH.
    + intros ->. apply Hx. by eapply list_elem_of_lookup_2.
Qed.

Lemma index_lt (nodes : list string) (node : string) :
  node ∈ nodes → index node nodes < length nodes.
Proof.
  induction nodes as [|x nodes IH]; intros Hin; [by inversion Hin|].
  simpl. destruct (decide (node = x)); [lia|].
  apply elem_of_cons in Hin as [?|Hin]; [done|]. apply IH in Hin. lia.
Qed.

Section Tracker.
Variable edges : list edge.

(** The inner loop of the tracker, for one node whose slot is [i]. *)
Let inner (node : string) (i : nat) (result : list Z) : list Z :=
  foldl
    (fun result '(a, b) =>
       if decide (node = a ∨ node = b)
       then alter (Z.add 1) i result
       else result)
    result edges.

Lemma inner_loop_lookup (node : string) (i : nat) (es : list edge) :
  ∀ (result : list Z) (j : nat),
  foldl
    (fun result '(a, b) =>
       if decide (node = a ∨ node = b)
       then alter (Z.add 1) i result
       else result)
    result es !! j
  = if decide (i = j)
    then Z.add (incidence node es) <$> result !! j
    else result !! j.
Proof.
  induction es as [|[a b] es IH]; intros result j.
  - cbn [foldl]. destruct (decide (i = j)); [|done].
    by destruct (result !! j).
  - cbn [foldl]. rewrite IH. unfold incidence. rewrite filter_cons.
    destruct (decide (node = a ∨ node = b)) as [Hab|Hab].
    + rewrite (decide_True (P := incident node (a, b))) by exact Hab.
      destruct (decide (i = j)) as [->|Hij].
      * rewrite list_lookup_alter_eq. destruct (result !! j); [|done].
        cbn [fmap option_fmap option_map length]. f_equal. lia.
      * by rewrite list_lookup_alter_ne.
    + by rewrite (decide_False (P := incident node (a, b))) by exact Hab.
Qed.

Lemma inner_loop_length (node : string) (i : nat) (es : list edge) :
  ∀ result : list Z,
  length
    (foldl
       (fun result '(a, b) =>
          if decide (node = a ∨ node = b)
          then alter (Z.add 1) i result
          else result)
       result es)
  = length result.
Proof.
  induction es as [|[a b] es IH]; intros result; [done|].
  cbn [foldl]. rewrite IH. destruct (decide (node = a ∨ node = b)); [|done].
  apply length_alter.
Qed.

Lemma outer_loop_lookup (nodes l : list string) :
  NoDup nodes → NoDup l → l ⊆ nodes →
  ∀ (result : list Z) (node : string), node ∈ nodes →
  foldl (fun result node => inner node (index node nodes) result) result l
    !! index node nodes
  = if decide (node ∈ l)
    then Z.add (incidence node edges) <$> result !! index node nodes
    else result !! index node nodes.
Proof.
  intros Hnodes. induction l as [|x l IH]; intros Hl Hsub result node Hnode.
  - cbn [foldl]. rewrite decide_False; [done|]. by intros H; inversion H.
  - inversion Hl as [|? ? Hx Hl']; subst. cbn [foldl].
    rewrite IH; [|done|by intros y Hy; apply Hsub; right|done].
    unfold inner at 1 2. rewrite !inner_loop_lookup.
    destruct (decide (node = x)) as [->|Hne].
    + rewrite (decide_False (P := x ∈ l)) by done.
      rewrite (decide_True (P := x ∈ x :: l)) by left.
      by rewrite decide_True.
    + assert (index x nodes ≠ index node nodes) as Hidx.
      { intros Heq. apply Hne.
        assert (x ∈ nodes) as Hxn by (apply Hsub; left).
        apply list_elem_of_lookup in Hnode as [j Hj].
        apply list_elem_of_lookup in Hxn as [j' Hj'].
        rewrite (index_lookup _ _ _ Hnodes Hj) in Heq.
        rewrite (index_lookup _ _ _ Hnodes Hj') in Heq. subst j'.
        congruence. }
      rewrite (decide_False (P := index x nodes = index node nodes)) by done.
      destruct (decide (node ∈ l)) as [Hin|Hin].
      * by rewrite (decide_True (P := node ∈ x :: l)) by by right.
      * rewrite (decide_False (P := node ∈ x :: l)); [done|].
        intros [?|?]%elem_of_cons; done.
Qed.

Lemma outer_loop_length (nodes l : list string) : ∀ result : list Z,
  length
    (foldl (fun result node => inner node (index node nodes) result) result l)
  = length result.
Proof.
  induction l as [|x l IH]; intros result; cbn [foldl]; [done|].
  rewrite IH. apply inner_loop_length.
Qed.

(** The slots of the tracker: one per node, each the number of edges that
    name the node, an edge from a node to itself counted once. *)
Lemma node_edge_frequencies_spec (nodes : list string) :
  NoDup nodes →
  node_edge_frequencies edges nodes
  = (λ node, incidence node edges) <$> nodes.
Proof.
  intros Hnodes. apply list_eq. intros j. rewrite list_lookup_fmap.
  destruct (nodes !! j) as [node|] eqn:Hj; cbn [fmap option_fmap option_map].
  - assert (node ∈ nodes) as Hin by by eapply list_elem_of_lookup_2.
    rewrite <- (index_lookup _ _ _ Hnodes Hj) at 1.
    unfold node_edge_frequencies.
    etrans; [exact (outer_loop_lookup nodes nodes Hnodes Hnodes
                      (λ _ H, H) _ node Hin)|].
    rewrite decide_True by done.
    rewrite lookup_replicate_2 by by apply index_lt.
    cbn [fmap option_fmap option_map]. f_equal. lia.
  - apply lookup_ge_None. apply lookup_ge_None in Hj.
    unfold node_edge_frequencies.
    etrans; [|exact (eq_ind_r (λ n, length nodes ≤ n)
                       Hj (eq_refl j))].
    apply Nat.eq_le_incl.
    etrans; [exact (outer_loop_length nodes nodes _)|].
    apply length_replicate.
Qed.
End Tracker.

Lemma zip_fmap_diag {A B : Type} (f : A → B) (l : list A) :
  zip l (f <$> l) = (λ x, (x, f x)) <$> l.
Proof. induction l as [|x l IH]; [done|]. cbn. by f_equal. Qed.

Lemma sum_Z_app (l1 l2 : list Z) :
  sum_Z (l1 ++ l2) = (sum_Z l1 + sum_Z l2)%Z.
Proof. induction l1 as [|x l1 IH]; simpl; [done|]. rewrite IH. lia. Qed.

Lemma sum_Z_perm (l1 l2 : list Z) : l1 ≡ₚ l2 → sum_Z l1 = sum_Z l2.
Proof.
  induction 1 as [|x l1 l2 _ IH|x y l|l1 l2 l3 _ IH1 _ IH2]; simpl;
    [done|by rewrite IH|lia|congruence].
Qed.

Lemma keys_fmap {A B : Type} (f : A → B) (l : list A) :
  ((λ x, (x, f x)) <$> l).*1 = l.
Proof. induction l as [|x l IH]; [done|]. cbn. by f_equal. Qed.

Lemma values_fmap {A B : Type} (f : A → B) (l : list A) :
  ((λ x, (x, f x)) <$> l).*2 = f <$> l.
Proof. induction l as [|x l IH]; [done|]. cbn. by f_equal. Qed.

Lemma NoDup_reverse_keys (f : string → Z) (l : list string) :
  NoDup l → NoDup (reverse ((λ x, (x, f x)) <$> l)).*1.
Proof. intros Hnd. by rewrite reverse_Permutation, keys_fmap. Qed.

(** A dictionary built from pairs with distinct keys holds these pairs. *)
Lemma dict_lookup (f : string → Z) (l : list string) (x : string) :
  NoDup l →
  dict ((λ x, (x, f x)) <$> l) !! x
  = if decide (x ∈ l) then Some (f x) else None.
Proof.
  intros Hnd. unfold dict. destruct (decide (x ∈ l)) as [Hin|Hin].
  - apply elem_of_list_to_map; [by apply NoDup_reverse_keys|].
    apply elem_of_reverse. apply list_elem_of_fmap. by exists x.
  - apply not_elem_of_list_to_map.
    by rewrite fmap_reverse, elem_of_reverse, keys_fmap.
Qed.

Lemma dict_sum_values (f : string → Z) (l : list string) :
  NoDup l →
  sum_values (dict ((λ x, (x, f x)) <$> l)) = sum_Z (f <$> l).
Proof.
  intros Hnd. unfold sum_values, dict.
  pose proof (NoDup_reverse_keys f l Hnd) as Hkeys.
  rewrite (sum_Z_perm _ (reverse ((λ x, (x, f x)) <$> l)).*2).
  - rewrite fmap_reverse, values_fmap.
    apply sum_Z_perm. apply reverse_Permutation.
  - apply fmap_Permutation. by apply map_to_list_to_map.
Qed.

(** What the Degree Tracker returns: for every node of the node set the
    number of edges that name it as prefix or as suffix, each edge counted
    once; no entry for anything else. *)
Lemma dictionary_lookup (edges : list edge) (nodes : gset string)
    (node : string) :
  dictionary_of_node_edge_frequencies edges nodes !! node
  = if decide (node ∈ nodes) then Some (incidence node edges) else None.
Proof.
  unfold dictionary_of_node_edge_frequencies.
  rewrite node_edge_frequencies_spec by apply NoDup_elements.
  rewrite zip_fmap_diag, dict_lookup by apply NoDup_elements.
  destruct (decide (node ∈ nodes)) as [Hin|Hin].
  - rewrite decide_True; [done|]. by apply elem_of_elements.
  - rewrite decide_False; [done|]. by rewrite elem_of_elements.
Qed.

Lemma dictionary_sum_values (edges : list edge) (nodes : gset string) :
  sum_values (dictionary_of_node_edge_frequencies edges nodes)
  = sum_Z ((λ node, incidence node edges) <$> elements nodes).
Proof.
  unfold dictionary_of_node_edge_frequencies.
  rewrite node_edge_frequencies_spec by apply NoDup_elements.
  rewrite zip_fmap_diag. apply dict_sum_values, NoDup_elements.
Qed.

(** Among distinct nodes that contain both endpoints, an edge is named by two
    nodes, and by one when its endpoints are the same node. *)
Lemma incident_count (l : list string) (a b : string) :
  NoDup l →
  length (filter (λ node, incident node (a, b)) l)
  = (if decide (a ∈ l) then 1 else 0)
    + (if decide (b ∈ l ∧ a ≠ b) then 1 else 0).
Proof.
  induction 1 as [|x l Hx Hnd IH]; [done|].
  rewrite filter_cons.
  assert (incident x (a, b) ↔ x = a ∨ x = b) as Hinc by done.
  destruct (decide (a = b)) as [Hab|Hab];
    destruct (decide (x = a)) as [Hxa|Hxa];
    destruct (decide (x = b)) as [Hxb|Hxb];
    subst;
    repeat case_decide; rewrite ?elem_of_cons in *; cbn [length];
    try rewrite IH;
    first [lia | exfalso; intuition congruence].
Qed.

Lemma sum_Z_cons (x : Z) (l : list Z) : sum_Z (x :: l) = (x + sum_Z l)%Z.
Proof. reflexivity. Qed.

Lemma incidence_cons (node : string) (e : edge) (edges : list edge) :
  incidence node (e :: edges)
  = ((if decide (incident node e) then 1 else 0) + incidence node edges)%Z.
Proof.
  unfold incidence. rewrite filter_cons.
  destruct (decide (incident node e)); cbn [length]; lia.
Qed.

Lemma incidence_sum_cons (e : edge) (edges : list edge) (l : list string) :
  sum_Z ((λ node, incidence node (e :: edges)) <$> l)
  = (Z.of_nat (length (filter (λ node, incident node e) l))
     + sum_Z ((λ node, incidence node edges) <$> l))%Z.
Proof.
  induction l as [|x l IH]; [done|].
  rewrite !fmap_cons, !sum_Z_cons, IH, incidence_cons, filter_cons.
  destruct (decide (incident x e)); cbn [length]; lia.
Qed.

Lemma incidence_sum (edges : list edge) (l : list string) :
  NoDup l →
  Forall (λ e : edge, e.1 ∈ l ∧ e.2 ∈ l) edges →
  sum_Z ((λ node, incidence node edges) <$> l)
  = (2 * Z.of_nat (length edges) - Z.of_nat (length (self_loops edges)))%Z.
Proof.
  intros Hnd. induction 1 as [|[a b] edges [Ha Hb] _ IH].
  - clear Hnd. induction l as [|x l IHl]; [done|].
    rewrite fmap_cons, sum_Z_cons, IHl. done.
  - cbn [fst snd] in Ha, Hb.
    rewrite incidence_sum_cons, IH, incident_count by done.
    unfold self_loops. rewrite filter_cons. cbn [fst snd].
    rewrite decide_True by done.
    destruct (decide (a = b)) as [->|Hab].
    + rewrite decide_False by tauto. cbn [length]. lia.
    + rewrite decide_True by tauto. cbn [length]. lia.
Qed.

Lemma sum_values_decrement (a : string) (d d' : gmap string Z) :
  decrement a d = Ok d' → sum_values d' = (sum_values d - 1)%Z.
Proof.
  unfold decrement. destruct (d !! a) as [v|] eqn:Ha; [|done].
  cbn [of_option mbind res_bind]. intros [= <-]. unfold sum_values.
  rewrite <- (sum_Z_perm _ _
    (fmap_Permutation snd _ _ (map_to_list_delete d a v Ha))).
  rewrite <- insert_delete_eq.
  rewrite (sum_Z_perm _ _
    (fmap_Permutation snd _ _
       (map_to_list_insert (delete a d) a (v - 1)%Z (lookup_delete_eq d a)))).
  simpl. lia.
Qed.

(** ** The trail finder *)

Lemma list_remove_lookup `{EqDecision A} (l : list A) (i : nat) (x : A) :
  l !! i = Some x → ∃ l', list_remove x l = Ok l'.
Proof.
  revert i. induction l as [|y l IH]; intros i Hi; [done|].
  cbn [list_remove]. destruct (decide (x = y)); [by eexists|].
  destruct i as [|i]; [by inversion Hi|].
  destruct (IH i Hi) as [l' ->]. by eexists.
Qed.

Lemma list_remove_perm `{EqDecision A} (l l' : list A) (x : A) :
  list_remove x l = Ok l' → l ≡ₚ x :: l'.
Proof.
  revert l'. induction l as [|y l IH]; intros l' Hr; [done|].
  cbn [list_remove] in Hr. destruct (decide (x = y)) as [->|Hne].
  - by inversion Hr.
  - destruct (list_remove x l) as [r|] eqn:Hl; [|done].
    cbn [mbind res_bind] in Hr. inversion Hr; subst.
    rewrite (IH r eq_refl). apply Permutation_swap.
Qed.

Lemma list_remove_length `{EqDecision A} (l l' : list A) (x : A) :
  list_remove x l = Ok l' → length l = S (length l').
Proof. intros Hr. by rewrite (list_remove_perm _ _ _ Hr). Qed.

Lemma decrement_dom (a : string) (d d' : gmap string Z) :
  decrement a d = Ok d' → a ∈ dom d ∧ dom d' = dom d.
Proof.
  unfold decrement. destruct (d !! a) as [v|] eqn:Ha; [|done].
  cbn [of_option mbind res_bind]. intros [= <-].
  apply elem_of_dom_2 in Ha. split; [done|].
  rewrite dom_insert_L. apply subseteq_union_1_L.
  by apply singleton_subseteq_l.
Qed.

Lemma decrement_ok (a : string) (d : gmap string Z) :
  a ∈ dom d → ∃ d', decrement a d = Ok d'.
Proof.
  intros [v Hv]%elem_of_dom. unfold decrement. rewrite Hv. by eexists.
Qed.

Lemma find_tour_loop_run (fuel : nat) : ∀ current i st st',
  find_tour_loop fuel current i st = Ok st' → find_tour_run current i st st'.
Proof.
  induction fuel as [|fuel IH]; intros current i st st' Hrun; [done|].
  cbn [find_tour_loop] in Hrun.
  destruct (Edges st !! i) as [[a b]|] eqn:Hi.
  - destruct (decide (a = current)) as [->|Hne].
    + destruct (list_remove (current, b) (Edges st)) as [Edges'|] eqn:Hrm;
        [|done].
      cbn [mbind res_bind] in Hrun.
      destruct (decrement current (kmer_dict st)) as [d1|] eqn:Hd1; [|done].
      cbn [mbind res_bind] in Hrun.
      destruct (decrement b d1) as [d2|] eqn:Hd2; [|done].
      cbn [mbind res_bind] in Hrun.
      destruct (find_tour_loop fuel b 0 (State Edges' (tour st) d2))
        as [st1|] eqn:Hrec; [|done].
      cbn [mbind res_bind] in Hrun.
      eapply run_take; eauto.
    + eapply run_pass; eauto.
  - inversion Hrun; subst. by apply run_end.
Qed.

(** What a run of [find_tour] does to the three shared objects. *)
Lemma find_tour_run_spec current i st st' :
  find_tour_run current i st st' →
  length (Edges st') ≤ length (Edges st) ∧
  sum_values (kmer_dict st')
  = (sum_values (kmer_dict st)
     - 2 * (Z.of_nat (length (Edges st)) - Z.of_nat (length (Edges st'))))%Z ∧
  length (tour st')
  = length (tour st) + 1 + (length (Edges st) - length (Edges st')) ∧
  (∃ t, tour st' = current :: t) ∧
  dom (kmer_dict st') = dom (kmer_dict st) ∧
  Edges st' ⊆ Edges st.
Proof.
  induction 1 as
    [current i st Hi
    |current i st a b st' Hi Hne _ IH
    |current i st b Edges' d1 d2 st1 st' Hi Hrm Hd1 Hd2 _ IH1 _ IH2];
    cbn [Edges tour kmer_dict] in *.
  - split_and!; [lia|lia|cbn [length]; lia|by eexists|done|done].
  - done.
  - destruct IH1 as (Hl1 & Hs1 & Ht1 & _ & Hdom1 & Hsub1).
    destruct IH2 as (Hl2 & Hs2 & Ht2 & Hhd & Hdom2 & Hsub2).
    pose proof (list_remove_length _ _ _ Hrm) as Hlen.
    pose proof (sum_values_decrement _ _ _ Hd1) as Hsum1.
    pose proof (sum_values_decrement _ _ _ Hd2) as Hsum2.
    split_and!; [lia|lia|lia|done| |].
    + rewrite Hdom2, Hdom1.
      apply decrement_dom in Hd1 as [_ <-]. by apply decrement_dom in Hd2 as [_ ->].
    + intros e He. apply Hsub2, Hsub1 in He.
      rewrite (list_remove_perm _ _ _ Hrm). by right.
Qed.

(** Every node a run puts on the tour is the node it started at or the far
    end of an edge. *)
Lemma find_tour_run_tour (P : string → Prop) current i st st' :
  find_tour_run current i st st' →
  P current →
  Forall (λ e : edge, P e.2) (Edges st) →
  Forall P (tour st) →
  Forall P (tour st').
Proof.
  induction 1 as
    [current i st Hi
    |current i st a b st' Hi Hne _ IH
    |current i st b Edges' d1 d2 st1 st' Hi Hrm Hd1 Hd2 Hrun1 IH1 _ IH2];
    intros Hc HE Ht; cbn [Edges tour kmer_dict] in *.
  - by constructor.
  - by apply IH.
  - assert (Forall (λ e : edge, P e.2) ((current, b) :: Edges')) as HE'.
    { by rewrite <- (list_remove_perm _ _ _ Hrm). }
    inversion HE' as [|? ? Hb HE'']; subst. cbn [snd] in Hb.
    apply IH2; [done| |by apply IH1].
    apply find_tour_run_spec in Hrun1 as (_ & _ & _ & _ & _ & Hsub).
    cbn [Edges] in Hsub. rewrite Forall_forall in HE'' |- *.
    intros e He. by apply HE'', Hsub.
Qed.

(** The fuel of [find_tour] is enough: when the degree table has an entry for
    both ends of every edge the call returns, it neither runs out of fuel nor
    raises an exception. *)
Lemma find_tour_loop_ok (fuel : nat) : ∀ current i st,
  (length (Edges st) + 1) * (length (Edges st) + 1)
    - (i `min` length (Edges st)) < fuel →
  Forall (λ e : edge, e.1 ∈ dom (kmer_dict st) ∧ e.2 ∈ dom (kmer_dict st))
    (Edges st) →
  ∃ st', find_tour_loop fuel current i st = Ok st'.
Proof.
  induction fuel as [|fuel IH]; intros current i st Hfuel Hkeys; [lia|].
  cbn [find_tour_loop].
  destruct (Edges st !! i) as [[a b]|] eqn:Hi; [|by eexists].
  pose proof (lookup_lt_Some _ _ _ Hi) as Hlt.
  destruct (decide (a = current)) as [->|Hne].
  - destruct (list_remove_lookup _ _ _ Hi) as [Edges' Hrm]. rewrite Hrm.
    cbn [mbind res_bind].
    pose proof (list_remove_length _ _ _ Hrm) as Hlen.
    pose proof (list_remove_perm _ _ _ Hrm) as Hperm.
    rewrite Hperm in Hkeys. inversion Hkeys as [|? ? [Ha Hb] Hkeys']; subst.
    cbn [fst snd] in Ha, Hb.
    destruct (decrement_ok _ _ Ha) as [d1 Hd1]. rewrite Hd1.
    cbn [mbind res_bind].
    apply decrement_dom in Hd1 as [_ Hdom1]. rewrite <- Hdom1 in Hb.
    destruct (decrement_ok _ _ Hb) as [d2 Hd2]. rewrite Hd2.
    cbn [mbind res_bind].
    apply decrement_dom in Hd2 as [_ Hdom2].
    destruct (IH b 0 (State Edges' (tour st) d2)) as [st1 Hst1].
    { cbn [Edges]. rewrite Nat.min_0_l. nia. }
    { cbn [Edges kmer_dict]. by rewrite Hdom2, Hdom1. }
    rewrite Hst1. cbn [mbind res_bind].
    apply find_tour_loop_run, find_tour_run_spec in Hst1
      as (Hl1 & _ & _ & _ & Hd & Hsub). cbn [Edges kmer_dict] in *.
    apply IH; [nia|].
    rewrite Forall_forall in Hkeys' |- *. intros e He.
    rewrite Hd, Hdom2, Hdom1. by apply Hkeys', Hsub.
  - apply IH; [|done]. lia.
Qed.

Lemma find_tour_ok (current : string) (st : state) :
  Forall (λ e : edge, e.1 ∈ dom (kmer_dict st) ∧ e.2 ∈ dom (kmer_dict st))
    (Edges st) →
  ∃ st', find_tour current st = Ok st' ∧ find_tour_run current 0 st st'.
Proof.
  intros Hkeys. destruct (find_tour_loop_ok
    (find_tour_fuel (length (Edges st))) current 0 st) as [st' Hst'];
    [unfold find_tour_fuel; lia|done|].
  exists st'. split; [done|]. by eapply find_tour_loop_run.
Qed.

(** ** The program *)


Section Pipeline.
Variable seq : string.
Variable kmer : nat.
Variable shuffle : nat → list edge → list edge.
Hypothesis kmer_positive : 1 ≤ kmer.
Hypothesis kmer_bound : kmer < String.length seq.

(** The builder's edge list starts with the edge at the offset 0. *)
Lemma de_bruijn_convert_cons :
  ∃ rest nodes,
    de_bruijn_convert seq kmer
    = ((slice seq 0 kmer, slice seq 1 (kmer + 1)) :: rest, nodes).
Proof.
  pose proof (de_bruijn_convert_lookup seq kmer 0 ltac:(lia)) as H0.
  destruct (de_bruijn_convert seq kmer) as [[|e rest] nodes]; [done|].
  cbn in H0. inversion H0; subst. by exists rest, nodes.
Qed.


End Pipeline.

(** ** One attempt of the retry loop *)


Section Attempt.
Variable seq : string.
Variable kmer : nat.
Variable shuffle : nat → list edge → list edge.
Hypothesis kmer_positive : 1 ≤ kmer.
Hypothesis kmer_bound : kmer < String.length seq.
Hypothesis shuffle_perm : ∀ n l, shuffle n l ≡ₚ l.

Let edges : list edge := (de_bruijn_convert seq kmer).1.
Let nodes : gset string := (de_bruijn_convert seq kmer).2.

Lemma edges_endpoints :
  Forall (λ e : edge, (e.1 ∈ nodes ∧ e.2 ∈ nodes) ∧
                      String.length e.1 = kmer ∧ String.length e.2 = kmer)
    edges.
Proof.
  apply Forall_forall. intros e He. unfold edges in He.
  rewrite de_bruijn_convert_edges in He.
  apply list_elem_of_fmap in He as (i & -> & Hi).
  pose proof (offsets_in_range _ _ _ Hi) as Hr. cbn [fst snd].
  split; [split|split].
  - apply de_bruijn_convert_nodes. exists i. split; [done|by left].
  - apply de_bruijn_convert_nodes. exists i. split; [done|by right].
  - rewrite slice_length; lia.
  - rewrite slice_length; lia.
Qed.

Lemma dictionary_dom (graph : list edge) :
  dom (dictionary_of_node_edge_frequencies graph nodes) = nodes.
Proof.
  apply set_eq. intros x. rewrite elem_of_dom, dictionary_lookup.
  destruct (decide (x ∈ nodes)) as [Hx|Hx]; split; done.
Qed.

Lemma dictionary_sum (graph : list edge) :
  graph ≡ₚ edges →
  sum_values (dictionary_of_node_edge_frequencies graph nodes)
  = (2 * Z.of_nat (length edges) - Z.of_nat (length (self_loops edges)))%Z.
Proof.
  intros Hperm. rewrite dictionary_sum_values, incidence_sum.
  - unfold self_loops. by rewrite Hperm.
  - apply NoDup_elements.
  - rewrite Hperm. eapply Forall_impl; [apply edges_endpoints|].
    intros e [[H1 H2] _]. by rewrite !elem_of_elements.
Qed.

(** What one pass of the trail finder over a freshly shuffled graph yields:
    it returns, the sum of the degree table has gone down by two for every
    edge consumed, and the tour holds the start node and one node more for
    every edge consumed, all of them k-mers. *)
Lemma attempt_spec (n : nat) :
  ∃ rest graph st,
    de_bruijn_convert seq kmer
    = ((slice seq 0 kmer, slice seq 1 (kmer + 1)) :: rest, nodes) ∧
    shuffled_edges (shuffle n) edges = Ok graph ∧
    graph = (slice seq 0 kmer, slice seq 1 (kmer + 1)) :: shuffle n rest ∧
    find_tour (slice seq 0 kmer)
      (State graph [] (dictionary_of_node_edge_frequencies graph nodes))
    = Ok st ∧
    length (Edges st) ≤ length edges ∧
    sum_values (kmer_dict st)
    = (2 * Z.of_nat (length (Edges st))
       - Z.of_nat (length (self_loops edges)))%Z ∧
    length (tour st) = 1 + (length edges - length (Edges st)) ∧
    (∃ t, tour st = slice seq 0 kmer :: t) ∧
    Forall (λ w, String.length w = kmer) (tour st).
Proof.
  destruct (de_bruijn_convert_cons seq kmer kmer_positive kmer_bound)
    as (rest & nodes' & Hdb).
  assert (edges = (slice seq 0 kmer, slice seq 1 (kmer + 1)) :: rest) as Hedges
    by (unfold edges; by rewrite Hdb).
  assert (nodes' = nodes) as -> by (unfold nodes; by rewrite Hdb).
  set (graph := (slice seq 0 kmer, slice seq 1 (kmer + 1)) :: shuffle n rest).
  assert (graph ≡ₚ edges) as Hperm
    by (unfold graph; by rewrite Hedges, shuffle_perm).
  pose proof edges_endpoints as Hends. rewrite <- Hperm in Hends.
  destruct (find_tour_ok (slice seq 0 kmer)
    (State graph [] (dictionary_of_node_edge_frequencies graph nodes)))
    as (st & Hst & Hrun).
  { cbn [Edges kmer_dict]. rewrite dictionary_dom.
    eapply Forall_impl; [exact Hends|]. by intros e [? _]. }
  exists rest, graph, st.
  pose proof (find_tour_run_spec _ _ _ _ Hrun) as (Hl & Hs & Ht & Hhd & _ & _).
  cbn [Edges tour kmer_dict length] in *.
  rewrite dictionary_sum in Hs by done. rewrite Hperm in Hl, Hs, Ht.
  split_and!; try done.
  - by rewrite Hedges, shuffled_edges_cons.
  - lia.
  - apply (find_tour_run_tour _ _ _ _ _ Hrun); cbn [Edges tour].
    + rewrite Hedges in Hperm.
      assert ((slice seq 0 kmer, slice seq 1 (kmer + 1)) ∈ graph) as Hin by left.
      rewrite Forall_forall in Hends. by apply Hends in Hin as [_ [? _]].
    + eapply Forall_impl; [exact Hends|]. by intros e (_ & _ & ?).
    + constructor.
Qed.
End Attempt.

(** ** The retry loop *)

Section Runs.
Variable seq : string.
Variable kmer : nat.
Variable shuffle : nat → list edge → list edge.
Hypothesis kmer_positive : 1 ≤ kmer.
Hypothesis kmer_bound : kmer < String.length seq.
Hypothesis shuffle_perm : ∀ n l, shuffle n l ≡ₚ l.

Let edges : list edge := (de_bruijn_convert seq kmer).1.



(** With an odd number of edges from a node to itself the sum of the degree
    table stays odd, and the loop never ends. *)
Lemma find_eulerian_tour_loop_odd (attempts : nat) :
  Nat.Odd (length (self_loops edges)) →
  ∀ n freq_dict tour_var,
  Z.Odd (sum_values freq_dict) →
  find_eulerian_tour_loop seq kmer shuffle attempts n freq_dict tour_var
  = Err OutOfFuel.
Proof.
  intros [m Hm].
  induction attempts as [|attempts IH]; intros n d tv [z Hz];
    cbn [find_eulerian_tour_loop];
    (destruct (decide (sum_values d ≠ 0%Z)) as [Hsum|Hsum]; [|lia]).
  - done.
  - destruct (attempt_spec seq kmer shuffle kmer_positive kmer_bound
                shuffle_perm n)
      as (rest & graph & st & Hdb & _ & Hgraph & Hft & _ & Hs & _).
    rewrite Hdb. rewrite shuffled_edges_cons.
    rewrite <- Hgraph. rewrite Hgraph at 1.
    cbn [mbind res_bind lookup list_lookup of_option].
    rewrite <- Hgraph, Hft. cbn [mbind res_bind].
    apply IH. fold edges in Hs. rewrite Hs, Hm.
    exists (Z.of_nat (length (Edges st)) - Z.of_nat m - 1)%Z. lia.
Qed.


Lemma main_odd_self_loops (attempts : nat) :
  Nat.Odd (length (self_loops edges)) →
  main seq kmer shuffle attempts = Err OutOfFuel.
Proof.
  intros Hodd. unfold main, find_eulerian_tour.
  destruct (attempt_spec seq kmer shuffle kmer_positive kmer_bound
              shuffle_perm 0)
    as (rest & graph & st & Hdb & _ & Hgraph & _).
  rewrite Hdb. rewrite shuffled_edges_cons. cbn [mbind res_bind].
  rewrite find_eulerian_tour_loop_odd; [done|done|].
  pose proof (dictionary_sum seq kmer kmer_positive kmer_bound
    ((slice seq 0 kmer, slice seq 1 (kmer + 1)) :: shuffle 0 rest)) as Hsum.
  rewrite Hdb in Hsum. cbn [fst snd] in Hsum. rewrite Hsum.
  - destruct Hodd as [m Hm]. unfold edges in Hm. rewrite Hdb in Hm.
    cbn [fst] in Hm. rewrite Hm.
    exists (Z.of_nat (length
      ((slice seq 0 kmer, slice seq 1 (kmer + 1)) :: rest))
            - Z.of_nat m - 1)%Z. lia.
  - by rewrite shuffle_perm.
Qed.
End Runs.

(** ** The outcome of the program *)



Lemma rotate_shuffle_perm (n : nat) (l : list edge) : rotate_shuffle n l ≡ₚ l.
Proof.
  unfold rotate_shuffle, rotate. rewrite <- (reverse_Permutation l) at 2.
  destruct (reverse l) as [|e r]; [done|]. by rewrite reverse_Permutation.
Qed.




(** The same on a short input. *)
Example main_ATCTGT :
  main "ATCTGT" 1 rev_shuffle 1 = Ok ("ATGTCT", not_identical).
Proof. vm_compute. reflexivity. Qed.

(** ** The degree tracker and the sum of the degree table *)

(** C2 at the input of its scenario, [AAAA] with [k = 1]: the three equal
    edges are counted one by one, but each of them counts once for the node
    [A], where the claim asks for twice. *)
Theorem C2_tracker_on_AAAA :
  let '(edges, nodes) := de_bruijn_convert "AAAA" 1 in
  edges = [("A", "A"); ("A", "A"); ("A", "A")] ∧
  dictionary_of_node_edge_frequencies edges nodes !! "A" = Some 3%Z ∧
  degree "A" edges = 6%Z.
Proof. vm_compute. done. Qed.

(** In general the tracker's count and the degree of the claim differ by the
    number of edges from the node to itself. *)
Lemma degree_incidence (node : string) (edges : list edge) :
  degree node edges
  = (incidence node edges
     + Z.of_nat (length (filter (λ e : edge, node = e.1 ∧ node = e.2) edges)))%Z.
Proof.
  unfold degree, incidence. induction edges as [|[a b] edges IH]; [done|].
  rewrite !filter_cons. unfold incident at 1. cbn [fst snd].
  repeat case_decide; cbn [length]; first [lia | exfalso; tauto].
Qed.

(** C3 at the input [CAAAAAAG] with [k = 5]: a pass over the unshuffled graph
    consumes every edge, and the sum of the degree table is then -1, not 0;
    the retry loop goes on. *)
Theorem C3_sum_after_full_pass :
  let '(edges, nodes) := de_bruijn_convert "CAAAAAAG" 5 in
  edges = [("CAAAA", "AAAAA"); ("AAAAA", "AAAAA"); ("AAAAA", "AAAAG")] ∧
  shuffled_edges (no_shuffle 1) edges = Ok edges ∧
  sum_values (dictionary_of_node_edge_frequencies edges nodes) = 5%Z ∧
  (∃ st,
     find_tour "CAAAA"
       (State edges [] (dictionary_of_node_edge_frequencies edges nodes))
     = Ok st ∧
     Edges st = [] ∧
     tour st = ["CAAAA"; "AAAAA"; "AAAAA"; "AAAAG"] ∧
     sum_values (kmer_dict st) = (-1)%Z) ∧
  main "CAAAAAAG" 5 no_shuffle 20 = Err OutOfFuel.
Proof.
  vm_compute. split_and!; try reflexivity.
  eexists. split_and!; reflexivity.
Qed.

(** Whatever the shuffles return, the program does not terminate on this
    input, nor on the example of the program's own usage note. *)
Lemma main_CAAAAAAG (shuffle : nat → list edge → list edge) (attempts : nat) :
  (∀ n l, shuffle n l ≡ₚ l) →
  main "CAAAAAAG" 5 shuffle attempts = Err OutOfFuel.
Proof.
  intros Hperm. apply main_odd_self_loops; [lia|simpl; lia|done|].
  exists 0. reflexivity.
Qed.

Lemma main_ATGGGTCA (shuffle : nat → list edge → list edge) (attempts : nat) :
  (∀ n l, shuffle n l ≡ₚ l) →
  main "ATGGGTCA" 2 shuffle attempts = Err OutOfFuel.
Proof.
  intros Hperm. apply main_odd_self_loops; [lia|simpl; lia|done|].
  exists 0. reflexivity.
Qed.

(** ** Edges that a call of the trail finder leaves behind *)

(** C4 at the input [TAACGTCAACGTG] with [k = 5], the shuffle moving the last
    edge to the front of the edges after the first. The call at the node
    [TAACG] consumes the first edge and calls [find_tour] at [AACGT]; that
    call consumes the edge to [ACGTG] and returns; the edge from [AACGT] to
    [ACGTC] was in the list when it began and is still there when it, and the
    call at [TAACG], have returned. *)
Theorem C4_edge_left_behind :
  let '(edges, nodes) := de_bruijn_convert "TAACGTCAACGTG" 5 in
  shuffled_edges (rotate_shuffle 1) edges
  = Ok [("TAACG", "AACGT"); ("AACGT", "ACGTG"); ("AACGT", "ACGTC");
        ("ACGTC", "CGTCA"); ("CGTCA", "GTCAA"); ("GTCAA", "TCAAC");
        ("TCAAC", "CAACG"); ("CAACG", "AACGT")] ∧
  (graph ← shuffled_edges (rotate_shuffle 1) edges;
   d ← decrement "TAACG" (dictionary_of_node_edge_frequencies graph nodes);
   d ← decrement "AACGT" d;
   st ← find_tour "AACGT" (State (tail graph) [] d);
   Ok (Edges st, tour st))
  = Ok ([("AACGT", "ACGTC"); ("ACGTC", "CGTCA"); ("CGTCA", "GTCAA");
         ("GTCAA", "TCAAC"); ("TCAAC", "CAACG"); ("CAACG", "AACGT")],
        ["AACGT"; "ACGTG"]) ∧
  (graph ← shuffled_edges (rotate_shuffle 1) edges;
   st ← find_tour "TAACG"
          (State graph [] (dictionary_of_node_edge_frequencies graph nodes));
   Ok (Edges st, tour st, sum_values (kmer_dict st)))
  = Ok ([("AACGT", "ACGTC"); ("ACGTC", "CGTCA"); ("CGTCA", "GTCAA");
         ("GTCAA", "TCAAC"); ("TCAAC", "CAACG"); ("CAACG", "AACGT")],
        ["TAACG"; "AACGT"; "ACGTG"], 12%Z).
Proof. vm_compute. split_and!; reflexivity. Qed.

(** ** The maximal k *)

Lemma substring_full (s : string) :
  String.substring 0 (String.length s) s = s.
Proof. induction s as [|c s IH]; [done|]. simpl. by rewrite IH. Qed.



(** A pass over a graph of one edge between two entries of the degree table
    consumes the edge. *)
Lemma find_tour_single (p s : string) (d d1 d2 : gmap string Z) :
  decrement p d = Ok d1 →
  decrement s d1 = Ok d2 →
  find_tour p (State [(p, s)] [] d) = Ok (State [] [p; s] d2).
Proof.
  intros Hd1 Hd2. unfold find_tour, find_tour_fuel. cbn [Edges length].
  change ((1 + 1) * (1 + 1)) with 4.
  cbn [find_tour_loop Edges tour kmer_dict lookup list_lookup].
  rewrite decide_True by done. rewrite list_remove_head.
  cbn [mbind res_bind]. rewrite Hd1. cbn [mbind res_bind]. rewrite Hd2.
  reflexivity.
Qed.

Section Maximal.
Variable seq : string.
Variable shuffle : nat → list edge → list edge.
Hypothesis seq_length : 2 ≤ String.length seq.
Hypothesis shuffle_perm : ∀ n l, shuffle n l ≡ₚ l.

Let k : nat := String.length seq - 1.
Let p : string := slice seq 0 k.
Let s : string := slice seq 1 (k + 1).



End Maximal.



Example main_ACGTAC :
  main "ACGTAC" 5 no_shuffle 1 = Ok ("ACGTAC", identical).
Proof. vm_compute. reflexivity. Qed.


(** * Further properties of the code *)

(** ** The graph builder *)

(** X1: for [k < len(str)] the node set that [de_bruijn_convert] returns is
    the set of the k-mers of the sequence, the last one included; for
    [k >= len(str)] it is empty. *)
Theorem X1_nodes_are_the_kmers (str : string) (k : nat) (x : string) :
  x ∈ (de_bruijn_convert str k).2 ↔
  k < String.length str ∧
  ∃ j, j + k ≤ String.length str ∧ x = slice str j (j + k).
Proof.
  rewrite de_bruijn_convert_nodes. cbn [fst snd]. split.
  - intros (i & Hi & Hx). apply offsets_in_range in Hi.
    split; [lia|]. destruct Hx as [-> | ->].
    + exists i. split; [lia|done].
    + exists (i + 1). split; [lia|]. f_equal. lia.
  - intros (Hk & j & Hj & ->).
    destruct (decide (j + k < String.length str)) as [Hlt|Hge].
    + exists j. split; [|by left]. rewrite offsets_seq, elem_of_seq. lia.
    + exists (j - 1). split; [rewrite offsets_seq, elem_of_seq; lia|].
      right. replace (j - 1 + 1) with j by lia. f_equal. lia.
Qed.

Lemma substring_zero (s : string) : ∀ i, String.substring i 0 s = EmptyString.
Proof.
  induction s as [|x s IH]; intros [|i]; try reflexivity. apply IH.
Qed.

(** X2: the edges of [de_bruijn_convert] overlap and chain. Both ends of an
    edge have [k] symbols and belong to the node set, the last [k - 1] symbols
    of its prefix are the first [k - 1] symbols of its suffix, and the suffix
    of an edge is the prefix of the edge after it. *)
Theorem X2_edges_overlap_and_chain (str : string) (k : nat) :
  let edges := (de_bruijn_convert str k).1 in
  let nodes := (de_bruijn_convert str k).2 in
  (∀ i a b, edges !! i = Some (a, b) →
     String.length a = k ∧ String.length b = k ∧ a ∈ nodes ∧ b ∈ nodes ∧
     slice a 1 k = slice b 0 (k - 1)) ∧
  (∀ i a b c d, edges !! i = Some (a, b) → edges !! (i + 1) = Some (c, d) →
     b = c).
Proof.
  intros edges nodes. split.
  - intros i a b Hi. pose proof (lookup_lt_Some _ _ _ Hi) as Hlt.
    unfold edges in Hlt, Hi. rewrite de_bruijn_convert_length in Hlt.
    rewrite de_bruijn_convert_lookup in Hi by done. injection Hi as <- <-.
    split_and!.
    + rewrite slice_length; lia.
    + rewrite slice_length; lia.
    + apply de_bruijn_convert_nodes. exists i.
      split; [rewrite offsets_seq, elem_of_seq; lia|by left].
    + apply de_bruijn_convert_nodes. exists i.
      split; [rewrite offsets_seq, elem_of_seq; lia|by right].
    + unfold slice. destruct k as [|k'].
      { replace (i + 0 - i) with 0 by lia. by rewrite !substring_zero. }
      replace (i + S k' - i) with (S k') by lia.
      replace (i + S k' + 1 - (i + 1)) with (S k') by lia.
      replace (S k' - 1 - 0) with k' by lia.
      replace (S k' - 1) with k' by lia.
      rewrite substring_suffix, substring_prefix. f_equal. lia.
  - intros i a b c d Hi Hi'.
    pose proof (lookup_lt_Some _ _ _ Hi') as Hlt.
    unfold edges in Hlt, Hi, Hi'. rewrite de_bruijn_convert_length in Hlt.
    rewrite de_bruijn_convert_lookup in Hi by lia.
    rewrite de_bruijn_convert_lookup in Hi' by done.
    injection Hi as <- <-. injection Hi' as <- <-. f_equal. lia.
Qed.

Lemma X2_edges_overlap_and_chain_witness :
  (String.length "AT" = 2 ∧ String.length "TG" = 2 ∧
   "AT" ∈ (de_bruijn_convert "ATGGGTCA" 2).2 ∧
   "TG" ∈ (de_bruijn_convert "ATGGGTCA" 2).2 ∧
   slice "AT" 1 2 = slice "TG" 0 (2 - 1)) ∧
  "TG" = "TG".
Proof.
  destruct (X2_edges_overlap_and_chain "ATGGGTCA" 2) as [Hedge Hchain]. split.
  - apply (Hedge 0 "AT" "TG"). reflexivity.
  - apply (Hchain 0 "AT" "TG" "TG" "GG"); reflexivity.
Defined.

(** The symbols of a string, read one by one. *)
Lemma substring_snoc (s : string) : ∀ n,
  n < String.length s →
  ∃ c, String.get n s = Some c ∧
       String.substring 0 n s +:+ String c EmptyString
       = String.substring 0 (S n) s.
Proof.
  induction s as [|x s IH]; intros n Hn; [simpl in Hn; lia|].
  destruct n as [|n].
  - exists x. split; [done|]. by destruct s.
  - destruct (IH n) as (c & Hg & Hs); [simpl in Hn; lia|].
    exists c. split; [done|].
    change (String.substring 0 (S n) (String x s))
      with (String x (String.substring 0 n s)).
    change (String.substring 0 (S (S n)) (String x s))
      with (String x (String.substring 0 (S n) s)).
    by rewrite string_app_cons, Hs.
Qed.

Lemma last_symbol_substring (s : string) : ∀ i k c,
  String.get (i + k) s = Some c →
  last_symbol (String.substring i (S k) s) = Ok c.
Proof.
  induction s as [|x s IH]; intros i k c Hg; [done|].
  destruct i as [|i]; [|by apply (IH i k c)].
  change (String.substring 0 (S k) (String x s))
    with (String x (String.substring 0 k s)).
  destruct k as [|k].
  - cbn in Hg. injection Hg as ->. by destruct s.
  - cbn in Hg. pose proof (IH 0 k c Hg) as Hl.
    destruct s as [|y s]; [done|].
    change (String.substring 0 (S k) (String y s))
      with (String y (String.substring 0 k s)) in *.
    exact Hl.
Qed.

(** Reading the k-mers at the offsets [i+1 ..] after the first [i + k]
    symbols gives a longer part of the sequence. *)
Lemma superstring_loop_kmers (s : string) (k : nat) (m : nat) : ∀ i,
  1 ≤ k → i + k + m ≤ String.length s →
  superstring_loop ((λ j, slice s j (j + k)) <$> seq (i + 1) m)
    (String.substring 0 (i + k) s) false
  = Ok (String.substring 0 (i + k + m) s).
Proof.
  induction m as [|m IH]; intros i Hk Hm.
  - cbn. do 2 f_equal. lia.
  - cbn [seq fmap list_fmap superstring_loop].
    destruct (substring_snoc s (i + k)) as (c & Hg & Hs); [lia|].
    assert (last_symbol (slice s (i + 1) (i + 1 + k)) = Ok c) as ->.
    { unfold slice. replace (i + 1 + k - (i + 1)) with (S (k - 1)) by lia.
      apply last_symbol_substring.
      by replace (i + 1 + (k - 1)) with (i + k) by lia. }
    cbn [mbind res_bind]. rewrite Hs.
    replace (S (i + k)) with (i + 1 + k) by lia.
    replace (S (i + 1)) with (i + 1 + 1) by lia.
    rewrite (IH (i + 1)) by lia. do 2 f_equal. lia.
Qed.

Lemma edge_suffixes (str : string) (k : nat) :
  (de_bruijn_convert str k).1.*2
  = (λ j, slice str j (j + k)) <$> seq 1 (String.length str - k).
Proof.
  rewrite de_bruijn_convert_edges, offsets_seq, <- list_fmap_compose.
  rewrite <- fmap_S_seq, <- list_fmap_compose. apply list_fmap_ext.
  intros _ i _. cbn. replace (i + 1) with (S i) by lia. f_equal. lia.
Qed.

Lemma reconstruct_in_order (str : string) (k : nat) :
  1 ≤ k → k < String.length str →
  eulerian_tour_to_superstring
    (slice str 0 k :: (de_bruijn_convert str k).1.*2)
  = Ok str.
Proof.
  intros Hk HL. rewrite eulerian_tour_to_superstring_cons, edge_suffixes.
  pose proof (superstring_loop_kmers str k (String.length str - k) 0 Hk
                ltac:(lia)) as Hloop.
  change (0 + 1) with 1 in Hloop. change (0 + k) with k in Hloop.
  replace (slice str 0 k) with (String.substring 0 k str)
    by (unfold slice; f_equal; lia).
  rewrite Hloop.
  replace (k + (String.length str - k)) with (String.length str) by lia.
  by rewrite substring_full.
Qed.

(** X3: building the graph and reading it back. For a valid input the first
    k-mer followed by the suffixes of the edges, in the order in which
    [de_bruijn_convert] returns them, is a tour that
    [eulerian_tour_to_superstring] turns into the input sequence. *)
Theorem X3_edge_order_reconstructs (str : string) (k : nat) :
  1 ≤ k → k < String.length str →
  let edges := (de_bruijn_convert str k).1 in
  head edges.*1 = Some (slice str 0 k) ∧
  length (slice str 0 k :: edges.*2) = String.length str - k + 1 ∧
  eulerian_tour_to_superstring (slice str 0 k :: edges.*2) = Ok str.
Proof.
  intros Hk HL edges. split_and!.
  - destruct (de_bruijn_convert_cons str k Hk HL) as (rest & nodes & Hdb).
    unfold edges. by rewrite Hdb.
  - cbn [length]. unfold edges.
    rewrite length_fmap, de_bruijn_convert_length. lia.
  - by apply reconstruct_in_order.
Qed.

Lemma X3_edge_order_reconstructs_witness :
  let edges := (de_bruijn_convert "ATGGGTCA" 2).1 in
  head edges.*1 = Some (slice "ATGGGTCA" 0 2) ∧
  length (slice "ATGGGTCA" 0 2 :: edges.*2) = String.length "ATGGGTCA" - 2 + 1 ∧
  eulerian_tour_to_superstring (slice "ATGGGTCA" 0 2 :: edges.*2)
  = Ok "ATGGGTCA".
Proof. apply (X3_edge_order_reconstructs "ATGGGTCA" 2); simpl; lia. Defined.

(** ** The degree tracker *)

(** X4: what [dictionary_of_node_edge_frequencies] returns, for any edge list
    and node set: its keys are the nodes of the node set, the value of a node
    is the number of edges that name it as prefix or as suffix, each edge
    counted once, and the order of the edges does not matter. *)
Theorem X4_tracker_counts (edges graph : list edge) (nodes : gset string) :
  graph ≡ₚ edges →
  (∀ node,
     dictionary_of_node_edge_frequencies edges nodes !! node
     = if decide (node ∈ nodes) then Some (incidence node edges) else None) ∧
  dom (dictionary_of_node_edge_frequencies edges nodes) = nodes ∧
  dictionary_of_node_edge_frequencies graph nodes
  = dictionary_of_node_edge_frequencies edges nodes.
Proof.
  intros Hperm. split_and!.
  - intros node. apply dictionary_lookup.
  - apply set_eq. intros x. rewrite elem_of_dom, dictionary_lookup.
    destruct (decide (x ∈ nodes)); split; done.
  - apply map_eq. intros node. rewrite !dictionary_lookup.
    destruct (decide (node ∈ nodes)); [|done].
    unfold incidence. by rewrite Hperm.
Qed.

Lemma X4_tracker_counts_witness :
  (∀ node,
     dictionary_of_node_edge_frequencies
       [("AT", "TG"); ("TG", "GG"); ("GG", "GG")] {["AT"; "TG"; "GG"]} !! node
     = if decide (node ∈ ({["AT"; "TG"; "GG"]} : gset string))
       then Some (incidence node [("AT", "TG"); ("TG", "GG"); ("GG", "GG")])
       else None) ∧
  dom (dictionary_of_node_edge_frequencies
         [("AT", "TG"); ("TG", "GG"); ("GG", "GG")] {["AT"; "TG"; "GG"]})
  = {["AT"; "TG"; "GG"]} ∧
  dictionary_of_node_edge_frequencies
    [("GG", "GG"); ("TG", "GG"); ("AT", "TG")] {["AT"; "TG"; "GG"]}
  = dictionary_of_node_edge_frequencies
      [("AT", "TG"); ("TG", "GG"); ("GG", "GG")] {["AT"; "TG"; "GG"]}.
Proof.
  apply (X4_tracker_counts [("AT", "TG"); ("TG", "GG"); ("GG", "GG")]
           [("GG", "GG"); ("TG", "GG"); ("AT", "TG")]).
  apply (reverse_Permutation [("AT", "TG"); ("TG", "GG"); ("GG", "GG")]).
Defined.

(** X5: when both ends of every edge are in the node set, the values of the
    table that the tracker returns sum to twice the number of edges minus the
    number of edges that go from a node to itself; so the sum is at least the
    number of edges. *)
Theorem X5_tracker_sum (edges : list edge) (nodes : gset string) :
  Forall (λ e : edge, e.1 ∈ nodes ∧ e.2 ∈ nodes) edges →
  sum_values (dictionary_of_node_edge_frequencies edges nodes)
  = (2 * Z.of_nat (length edges) - Z.of_nat (length (self_loops edges)))%Z ∧
  (Z.of_nat (length edges)
   ≤ sum_values (dictionary_of_node_edge_frequencies edges nodes))%Z.
Proof.
  intros Hends.
  assert (sum_values (dictionary_of_node_edge_frequencies edges nodes)
          = (2 * Z.of_nat (length edges)
             - Z.of_nat (length (self_loops edges)))%Z) as Hsum.
  { rewrite dictionary_sum_values. apply incidence_sum; [apply NoDup_elements|].
    eapply Forall_impl; [exact Hends|]. intros e [H1 H2].
    by rewrite !elem_of_elements. }
  split; [done|]. rewrite Hsum.
  pose proof (length_filter (λ e : edge, e.1 = e.2) edges) as Hle.
  unfold self_loops. lia.
Qed.

Lemma X5_tracker_sum_witness :
  sum_values
    (dictionary_of_node_edge_frequencies
       [("AT", "TG"); ("TG", "GG"); ("GG", "GG")] {["AT"; "TG"; "GG"]})
  = (2 * Z.of_nat (length [("AT", "TG"); ("TG", "GG"); ("GG", "GG")])
     - Z.of_nat (length (self_loops
                           [("AT", "TG"); ("TG", "GG"); ("GG", "GG")])))%Z ∧
  (Z.of_nat (length [("AT", "TG"); ("TG", "GG"); ("GG", "GG")])
   ≤ sum_values
       (dictionary_of_node_edge_frequencies
          [("AT", "TG"); ("TG", "GG"); ("GG", "GG")] {["AT"; "TG"; "GG"]}))%Z.
Proof.
  apply (X5_tracker_sum [("AT", "TG"); ("TG", "GG"); ("GG", "GG")]
           {["AT"; "TG"; "GG"]}).
  repeat constructor; cbn [fst snd];
    rewrite !elem_of_union, !elem_of_singleton; tauto.
Defined.

(** ** The trail finder *)

Lemma list_remove_sublist `{EqDecision A} (l l' : list A) (x : A) :
  list_remove x l = Ok l' → l' `sublist_of` l.
Proof.
  revert l'. induction l as [|y l IH]; intros l' Hr; [done|].
  cbn [list_remove] in Hr. destruct (decide (x = y)) as [->|Hne].
  - injection Hr as <-. by apply sublist_cons.
  - destruct (list_remove x l) as [r|] eqn:Hl; [|done].
    cbn [mbind res_bind] in Hr. injection Hr as <-.
    apply sublist_skip. by apply IH.
Qed.

(** The edges a run leaves are the edges it found, in their order, without
    the consumed ones; the nodes it adds to the tour come before the nodes
    that were there. *)
Lemma find_tour_run_order current i st st' :
  find_tour_run current i st st' →
  Edges st' `sublist_of` Edges st ∧
  ∃ new, tour st' = current :: new ++ tour st ∧
         length new = length (Edges st) - length (Edges st').
Proof.
  induction 1 as
    [current i st Hi
    |current i st a b st' Hi Hne _ IH
    |current i st b Edges' d1 d2 st1 st' Hi Hrm Hd1 Hd2 Hrun1 IH1 Hrun2 IH2];
    cbn [Edges tour kmer_dict] in *.
  - split; [done|]. exists []. split; [done|]. cbn [length]. lia.
  - done.
  - destruct IH1 as (Hsub1 & new1 & Ht1 & Hn1).
    destruct IH2 as (Hsub2 & new2 & Ht2 & Hn2).
    apply find_tour_run_spec in Hrun1 as (Hl1 & _).
    apply find_tour_run_spec in Hrun2 as (Hl2 & _).
    cbn [Edges] in *.
    pose proof (list_remove_length _ _ _ Hrm) as Hlen.
    split.
    + etrans; [exact Hsub2|]. etrans; [exact Hsub1|].
      by eapply list_remove_sublist.
    + exists (new2 ++ b :: new1). split.
      * rewrite Ht2, Ht1. by rewrite <- app_assoc.
      * rewrite length_app. cbn [length]. lia.
Qed.

(** X6: what a call of [find_tour] that returns has done. The edges left are
    the edges found, in their order, without the consumed ones; the tour has
    gained [current] at its front and, after it, one node for every consumed
    edge; the values of the degree table sum to 2 less for every consumed
    edge, and the table has the keys it had. *)
Theorem X6_find_tour_effect (current : string) (st st' : state) :
  find_tour current st = Ok st' →
  Edges st' `sublist_of` Edges st ∧
  (∃ new, tour st' = current :: new ++ tour st ∧
          length new = length (Edges st) - length (Edges st')) ∧
  sum_values (kmer_dict st')
  = (sum_values (kmer_dict st)
     - 2 * (Z.of_nat (length (Edges st)) - Z.of_nat (length (Edges st'))))%Z ∧
  dom (kmer_dict st') = dom (kmer_dict st).
Proof.
  intros Hft. apply find_tour_loop_run in Hft.
  destruct (find_tour_run_order _ _ _ _ Hft) as (Hsub & Hnew).
  destruct (find_tour_run_spec _ _ _ _ Hft) as (_ & Hsum & _ & _ & Hdom & _).
  by split_and!.
Qed.

Lemma find_tour_single_edge :
  find_tour "A" (State [("A", "C")] [] single_edge_table)
  = Ok single_edge_after.
Proof.
  apply find_tour_single with (d1 := <["A" := 0%Z]> single_edge_table).
  - reflexivity.
  - reflexivity.
Qed.

Lemma X6_find_tour_effect_witness :
  Edges single_edge_after `sublist_of` [("A", "C")] ∧
  (∃ new, tour single_edge_after = "A" :: new ++ [] ∧
          length new = length [("A", "C")] - length (Edges single_edge_after)) ∧
  sum_values (kmer_dict single_edge_after)
  = (sum_values single_edge_table
     - 2 * (Z.of_nat (length [("A", "C")])
            - Z.of_nat (length (Edges single_edge_after))))%Z ∧
  dom (kmer_dict single_edge_after) = dom single_edge_table.
Proof.
  apply (X6_find_tour_effect "A" (State [("A", "C")] [] single_edge_table)).
  apply find_tour_single_edge.
Defined.



(** The loop of [find_tour] passes over the edges that do not start at
    [current]. *)
Lemma find_tour_loop_pass (current : string) (st : state) (n : nat) :
  ∀ fuel i,
  (∀ j, i ≤ j < i + n → ∃ a b, Edges st !! j = Some (a, b) ∧ a ≠ current) →
  find_tour_loop (n + fuel) current i st
  = find_tour_loop fuel current (i + n) st.
Proof.
  induction n as [|n IH]; intros fuel i Hpass.
  - by rewrite Nat.add_0_r.
  - destruct (Hpass i) as (a & b & Hi & Hne); [lia|].
    cbn [Nat.add find_tour_loop]. rewrite Hi, decide_False by done.
    rewrite IH; [f_equal; lia|]. intros j Hj. apply Hpass. lia.
Qed.

(** X8: [find_tour] raises [KeyError] when the first edge of the list that
    starts at [current] has an end without a key in the degree table. *)
Theorem X8_find_tour_key_error (current b : string) (pre post : list edge)
    (t : list string) (d : gmap string Z) :
  Forall (λ e : edge, e.1 ≠ current) pre →
  current ∉ dom d ∨ b ∉ dom d →
  find_tour current (State (pre ++ (current, b) :: post) t d) = Err KeyError.
Proof.
  intros Hpre Hkey. unfold find_tour, find_tour_fuel. cbn [Edges].
  set (E := pre ++ (current, b) :: post).
  assert (length E = length pre + S (length post)) as HE
    by (unfold E; by rewrite length_app).
  replace (S ((length E + 1) * (length E + 1)))
    with (length pre + S ((length E + 1) * (length E + 1) - length pre))
    by nia.
  rewrite find_tour_loop_pass.
  - cbn [Nat.add find_tour_loop Edges kmer_dict].
    assert (E !! length pre = Some (current, b)) as ->
      by (unfold E; by rewrite list_lookup_middle).
    rewrite decide_True by done.
    destruct (list_remove_lookup E (length pre) (current, b)) as [E' ->];
      [unfold E; by rewrite list_lookup_middle|].
    cbn [mbind res_bind]. unfold decrement at 2.
    destruct (d !! current) as [v|] eqn:Hv; [|done].
    cbn [of_option mbind res_bind]. unfold decrement.
    destruct Hkey as [Hc|Hb]; [by apply not_elem_of_dom in Hc; congruence|].
    assert (<[current:=(v - 1)%Z]> d !! b = None) as ->; [|done].
    apply not_elem_of_dom. rewrite dom_insert_L.
    apply elem_of_dom_2 in Hv. intros [->%elem_of_singleton|?]%elem_of_union;
      done.
  - intros j Hj. cbn [Edges]. unfold E.
    destruct (lookup_lt_is_Some_2 pre j) as [[a' b'] Hj']; [lia|].
    exists a', b'. split; [by rewrite lookup_app_l by lia|].
    rewrite Forall_forall in Hpre.
    by apply (Hpre (a', b')), list_elem_of_lookup_2 with j.
Qed.

Lemma X8_find_tour_key_error_witness :
  find_tour "A" (State ([("C", "A")] ++ ("A", "G") :: []) [] single_edge_table)
  = Err KeyError.
Proof.
  apply (X8_find_tour_key_error "A" "G" [("C", "A")] [] [] single_edge_table).
  - repeat constructor. discriminate.
  - right. unfold single_edge_table. rewrite dom_insert_L, dom_singleton_L.
    rewrite elem_of_union, !elem_of_singleton. intros [?|?]; discriminate.
Defined.

(** X9: at a node where no edge of the list starts, [find_tour] only puts the
    node at the front of the tour: the edges and the degree table stay as they
    are, whatever the table holds. *)
Theorem X9_find_tour_dead_end (current : string) (st : state) :
  Forall (λ e : edge, e.1 ≠ current) (Edges st) →
  find_tour current st
  = Ok (State (Edges st) (current :: tour st) (kmer_dict st)).
Proof.
  intros Hnone. unfold find_tour, find_tour_fuel.
  replace (S ((length (Edges st) + 1) * (length (Edges st) + 1)))
    with (length (Edges st)
          + S ((length (Edges st) + 1) * (length (Edges st) + 1)
               - length (Edges st)))
    by nia.
  rewrite find_tour_loop_pass.
  - cbn [Nat.add find_tour_loop].
    by rewrite (lookup_ge_None_2 (Edges st) (length (Edges st))) by lia.
  - intros j Hj.
    destruct (lookup_lt_is_Some_2 (Edges st) j) as [[a' b'] Hj']; [lia|].
    exists a', b'. split; [done|]. rewrite Forall_forall in Hnone.
    by apply (Hnone (a', b')), list_elem_of_lookup_2 with j.
Qed.

Lemma X9_find_tour_dead_end_witness :
  find_tour "G" (State [("A", "C"); ("C", "A")] ["T"] ∅)
  = Ok (State [("A", "C"); ("C", "A")] ("G" :: ["T"]) ∅).
Proof.
  apply (X9_find_tour_dead_end "G" (State [("A", "C"); ("C", "A")] ["T"] ∅)).
  repeat constructor; discriminate.
Defined.

(** ** The retry loop and the script *)

Lemma incidence_none (node : string) (graph : list edge) :
  Forall (λ e : edge, e.1 ≠ node ∧ e.2 ≠ node) graph →
  incidence node graph = 0%Z.
Proof.
  unfold incidence. induction 1 as [|[a b] graph [Ha Hb] _ IH]; [done|].
  rewrite filter_cons, decide_False; [done|].
  unfold incident. cbn [fst snd] in *. intros [?|?]; congruence.
Qed.

(** X10: [find_eulerian_tour] called with a graph that names no node of the
    sequence, the empty graph among them, finds a degree table that sums to
    zero, skips its loop and fails on [return tour]: the variable was never
    assigned. *)
Theorem X10_find_eulerian_tour_unbound (seq : string) (kmer : nat)
    (shuffle : nat → list edge → list edge) (attempts : nat)
    (graph : list edge) :
  Forall (λ e : edge, (e.1 ∉ (de_bruijn_convert seq kmer).2) ∧
                      (e.2 ∉ (de_bruijn_convert seq kmer).2)) graph →
  find_eulerian_tour seq kmer shuffle attempts graph = Err UnboundLocalError.
Proof.
  intros Hout. unfold find_eulerian_tour.
  destruct (de_bruijn_convert seq kmer) as [edges nodes] eqn:Hdb.
  cbn [fst snd] in Hout.
  assert (sum_values (dictionary_of_node_edge_frequencies graph nodes) = 0%Z)
    as Hsum.
  { rewrite dictionary_sum_values.
    assert (∀ l : list string, Forall (λ x, x ∈ nodes) l →
              sum_Z ((λ node, incidence node graph) <$> l) = 0%Z) as Hzero.
    { induction 1 as [|x l Hx _ IH]; [done|].
      rewrite fmap_cons, sum_Z_cons, IH, incidence_none; [done|].
      eapply Forall_impl; [exact Hout|]. intros e [H1 H2].
      split; intros Heq; [apply H1|apply H2]; by rewrite Heq. }
    apply Hzero, Forall_forall. intros x. by rewrite elem_of_elements. }
  destruct attempts; cbn [find_eulerian_tour_loop];
    by rewrite decide_False by (rewrite Hsum; intros H; by apply H).
Qed.

Lemma X10_find_eulerian_tour_unbound_witness :
  find_eulerian_tour "ACGT" 2 no_shuffle 3 [] = Err UnboundLocalError.
Proof. apply (X10_find_eulerian_tour_unbound "ACGT" 2 no_shuffle 3 []). constructor. Defined.



Section Identity.
Variable seq : string.
Variable kmer : nat.
Variable shuffle : nat → list edge → list edge.
Hypothesis kmer_positive : 1 ≤ kmer.
Hypothesis kmer_bound : kmer < String.length seq.
Hypothesis shuffle_perm : ∀ n l, shuffle n l ≡ₚ l.

Let edges : list edge := (de_bruijn_convert seq kmer).1.
Let nodes : gset string := (de_bruijn_convert seq kmer).2.





End Identity.







(** X14: the guard of lines 88-90 is needed. Called with a k-mer size that is
    not smaller than the length of the sequence, the main part builds an empty
    graph and fails in [shuffled_edges], where [first_edge] is never
    assigned. *)
Theorem X14_main_without_guard (seq : string) (kmer : nat)
    (shuffle : nat → list edge → list edge) (attempts : nat) :
  String.length seq ≤ kmer →
  shuffled_edges (shuffle 0) (de_bruijn_convert seq kmer).1
  = Err UnboundLocalError ∧
  main seq kmer shuffle attempts = Err UnboundLocalError.
Proof.
  intros Hle.
  assert (de_bruijn_convert seq kmer = ([], ∅)) as Hdb.
  { unfold de_bruijn_convert. rewrite offsets_seq.
    by replace (String.length seq - kmer) with 0 by lia. }
  unfold main. rewrite Hdb. split; reflexivity.
Qed.

Lemma X14_main_without_guard_witness :
  shuffled_edges (no_shuffle 0) (de_bruijn_convert "ACG" 3).1
  = Err UnboundLocalError ∧
  main "ACG" 3 no_shuffle 2 = Err UnboundLocalError.
Proof. apply (X14_main_without_guard "ACG" 3 no_shuffle 2). simpl. lia. Defined.

(** ** The check of the sequence argument *)

Lemma check_dna_sequence_app (s t : string) :
  check_dna_sequence (s +:+ t) = inr () ↔
  check_dna_sequence s = inr () ∧ check_dna_sequence t = inr ().
Proof.
  induction s as [|c s IH].
  - rewrite string_app_nil_l. cbn [check_dna_sequence]. tauto.
  - rewrite string_app_cons. cbn [check_dna_sequence].
    destruct (is_nucleotide c); [exact IH|]. split; [done|]. by intros [? _].
Qed.

(** X15: [check_dna_sequence] returns normally exactly when every symbol of
    its argument is one of [G C T A g c t a], and otherwise raises
    [ArgumentTypeError] with its one message. It accepts the empty sequence
    and, with two sequences, their concatenation: it puts no bound on the
    length, so there are accepted sequences of every length. *)
Theorem X15_check_dna_sequence :
  (∀ s,
     check_dna_sequence s = inr () ↔
     Forall (λ c, c ∈ String.list_ascii_of_string "GCTAgcta")
       (String.list_ascii_of_string s)) ∧
  (∀ s,
     check_dna_sequence s = inr () ∨
     check_dna_sequence s
     = inl (ArgumentTypeError "Non-standard nucleotides in the sequence")) ∧
  check_dna_sequence EmptyString = inr () ∧
  (∀ s t,
     check_dna_sequence (s +:+ t) = inr () ↔
     check_dna_sequence s = inr () ∧ check_dna_sequence t = inr ()) ∧
  (∀ n, ∃ s, String.length s = n ∧ check_dna_sequence s = inr ()).
Proof.
  split_and!.
  - induction s as [|c s IH]; cbn [check_dna_sequence String.list_ascii_of_string].
    + split; [constructor|done].
    + rewrite Forall_cons. unfold is_nucleotide at 1.
      destruct (bool_decide_reflect
                  (c ∈ String.list_ascii_of_string "GCTAgcta")) as [Hc|Hc].
      * rewrite IH. tauto.
      * split; [done|]. by intros [? _].
  - induction s as [|c s IH]; cbn [check_dna_sequence]; [by left|].
    destruct (is_nucleotide c); [exact IH|by right].
  - reflexivity.
  - apply check_dna_sequence_app.
  - induction n as [|n (s & Hlen & Hs)]; [by exists EmptyString|].
    exists (String "A" s). split; [cbn [String.length]; by rewrite Hlen|].
    exact Hs.
Qed.
